(** * stream-up: the transcript -> translate -> synthesize pipeline of [src/App.tsx]

    A shallow embedding of the pure helpers ([parseVTT], the sentence
    splitter of [fetchZoomTranscript]) and of the asynchronous translation
    queue ([enqueueTranslation], [processQueue], [translateWithGemini],
    [speakWithGemini]) as a transition system over explicit state. *)

From Stdlib Require Import String Ascii List NArith Bool Arith Lia Sorted.
Import ListNotations.

Local Open Scope N_scope.

(** ** JavaScript strings

    A JavaScript string is a sequence of UTF-16 code units.  Literals of the
    source are written with [js], which maps each character of an ASCII
    literal to its code unit. *)

Definition jsstring := list N.

Definition js (s : string) : jsstring :=
  List.map N_of_ascii (list_ascii_of_string s).

(** Truthiness of a string value: only the empty string is falsy. *)
Definition truthy (s : jsstring) : bool :=
  match s with [] => false | _ :: _ => true end.

(** WhiteSpace and LineTerminator code units of ECMAScript: the set that
    [String.prototype.trim] strips and that the regular expression class
    [\s] matches. *)
Definition is_whitespace (c : N) : bool :=
  (9 <=? c) && (c <=? 13)
  || (c =? 32) || (c =? 160) || (c =? 5760)
  || (8192 <=? c) && (c <=? 8202)
  || (c =? 8232) || (c =? 8233) || (c =? 8239) || (c =? 8287)
  || (c =? 12288) || (c =? 65279).

(** The class [\d] of a regular expression without the unicode flag. *)
Definition is_digit (c : N) : bool := (48 <=? c) && (c <=? 57).

Fixpoint dropWhile (p : N -> bool) (s : jsstring) : jsstring :=
  match s with
  | [] => []
  | c :: r => if p c then dropWhile p r else s
  end.

Definition trimStart (s : jsstring) : jsstring := dropWhile is_whitespace s.
Definition trimEnd (s : jsstring) : jsstring := rev (dropWhile is_whitespace (rev s)).

(** [String.prototype.trim]. *)
Definition trim (s : jsstring) : jsstring := trimEnd (trimStart s).

(** [s.startsWith(p)]. *)
Fixpoint startsWith (s p : jsstring) : bool :=
  match p, s with
  | [], _ => true
  | _ :: _, [] => false
  | y :: p', x :: s' => (x =? y) && startsWith s' p'
  end.

(** [s.includes(p)]. *)
Fixpoint includes (s p : jsstring) : bool :=
  startsWith s p || match s with [] => false | _ :: r => includes r p end.

(** [/^\d+$/.test(s)]: one or more digits and nothing else. *)
Definition test_digits (s : jsstring) : bool :=
  truthy s && forallb is_digit s.

(** [s.split('\n')]: the pieces between line feeds; the empty string gives
    one empty piece. *)
Fixpoint split_nl (s : jsstring) : list jsstring :=
  match s with
  | [] => [[]]
  | c :: r =>
      if c =? 10 then [] :: split_nl r
      else match split_nl r with
           | [] => [[c]]
           | l :: ls => (c :: l) :: ls
           end
  end.

(** [a.join(sep)]. *)
Fixpoint join (sep : jsstring) (a : list jsstring) : jsstring :=
  match a with
  | [] => []
  | [x] => x
  | x :: r => x ++ sep ++ join sep r
  end.

(** ** [parseVTT] *)

Definition WEBVTT : jsstring := js "WEBVTT".
Definition NOTE : jsstring := js "NOTE".
Definition ARROW : jsstring := js "-->".
Definition SPACE : jsstring := js " ".
Definition LF : jsstring := [10].

(** One iteration of the [for (const line of lines)] loop: each [continue]
    leaves [output] as it is, the last statement pushes the trimmed line. *)
Definition parseVTT_iter (output : list jsstring) (line : jsstring) : list jsstring :=
  let trim := trim line in
  if negb (truthy trim) then output
  else if startsWith trim WEBVTT then output
  else if startsWith trim NOTE then output
  else if includes trim ARROW then output
  else if test_digits trim then output
  else output ++ [trim].

Definition parseVTT (vtt : jsstring) : jsstring :=
  let lines := split_nl vtt in
  let output := fold_left parseVTT_iter lines [] in
  join SPACE output.

(** The specification's wording of the same function: which lines are
    discarded, and what is done with the others. *)
Definition is_blank_line (l : jsstring) : bool := negb (truthy l).
Definition is_header_line (l : jsstring) : bool := startsWith l WEBVTT.
Definition is_note_line (l : jsstring) : bool := startsWith l NOTE.
Definition is_cue_index_line (l : jsstring) : bool := test_digits l.
Definition is_time_range_line (l : jsstring) : bool := includes l ARROW.

Definition is_discarded (l : jsstring) : bool :=
  is_blank_line l || is_header_line l || is_note_line l
  || is_cue_index_line l || is_time_range_line l.

Definition spoken_text_spec (vtt : jsstring) : jsstring :=
  join SPACE (filter (fun l => negb (is_discarded l)) (List.map trim (split_nl vtt))).

(** The cue document of the specification's parsing example. *)
Definition example_cues : jsstring :=
  join LF (List.map js
    [ "WEBVTT"; "NOTE generated"; "1"; "00:00:00.000 --> 00:00:02.000";
      "Hello there."; "2"; "00:00:02.000 --> 00:00:04.000"; "How are you?" ])%string.

(** ** Sentence splitting and throttled submission ([fetchZoomTranscript])

    [cleanText.split(/(?<=[.!?])\s+/)].  The separator matches at a position
    whose preceding code unit is one of [. ! ?] (the lookbehind) and consumes
    the longest run of one or more [\s] from there. *)

Definition is_sentence_end (c : N) : bool :=
  (c =? 46) || (c =? 33) || (c =? 63).

(** The greedy [\s+] after its first code unit: the last code unit consumed
    and what is left of the input. *)
Fixpoint span_ws (last : N) (s : jsstring) : N * jsstring :=
  match s with
  | [] => (last, [])
  | c :: r => if is_whitespace c then span_ws c r else (last, s)
  end.

(** The separator tried at one position: [prev] is the code unit before the
    position (none at index 0), [rest] the input from the position on. *)
Definition match_separator (prev : option N) (rest : jsstring) : option (N * jsstring) :=
  match prev, rest with
  | Some t, c :: r =>
      if is_sentence_end t && is_whitespace c then Some (span_ws c r) else None
  | _, _ => None
  end.

(** The loop of [String.prototype.split] with a regular expression: [unit]
    is the substring from the end [p] of the last separator to the current
    position [q], [rest] the input from [q].  A failed match moves [q] by
    one; a match pushes [unit] and restarts both at the end of the match.
    [fuel] bounds the number of positions visited. *)
Fixpoint split_loop (fuel : nat) (prev : option N) (unit rest : jsstring)
  : list jsstring :=
  match fuel with
  | O => [unit ++ rest]
  | S fuel' =>
      match rest with
      | [] => [unit]
      | c :: rest' =>
          match match_separator prev rest with
          | Some (last, after) => unit :: split_loop fuel' (Some last) [] after
          | None => split_loop fuel' (Some c) (unit ++ [c]) rest'
          end
      end
  end.

Definition split_sentences (text : jsstring) : list jsstring :=
  split_loop (S (length text)) None [] text.

(** A pending [setTimeout]: its delay in milliseconds and the argument its
    callback passes to [enqueueTranslation]. *)
Record Timer := mkTimer { delay_ms : N; timer_text : jsstring }.

(** [sentences.forEach((sentence, index) => ...)], from [index] on. *)
Fixpoint forEach_sentence (index : N) (sentences : list jsstring)
  (timers : list Timer) : list Timer :=
  match sentences with
  | [] => timers
  | sentence :: r =>
      let timers' :=
        if truthy (trim sentence)
        then timers ++ [mkTimer (index * 100) (trim sentence)]
        else timers in
      forEach_sentence (index + 1) r timers'
  end.

(** Steps 4 of [fetchZoomTranscript]: the timers registered for a parsed
    transcript. *)
Definition queue_sentences (cleanText : jsstring) : list Timer :=
  forEach_sentence 0 (split_sentences cleanText) [].

(** The specification's wording of the split.  A boundary is a [. ! ?]
    directly followed by whitespace. *)
Definition no_boundary (u : jsstring) : Prop :=
  forall a t w b, u = a ++ t :: w :: b ->
    is_sentence_end t = true -> is_whitespace w = false.

Definition starts_without_whitespace (s : jsstring) : Prop :=
  match s with [] => True | c :: _ => is_whitespace c = false end.

Inductive SentenceSplit : jsstring -> list jsstring -> Prop :=
| SS_last : forall u, no_boundary u -> SentenceSplit u [u]
| SS_cut : forall u t ws rest units,
    no_boundary (u ++ [t]) ->
    is_sentence_end t = true ->
    ws <> [] -> Forall (fun c => is_whitespace c = true) ws ->
    starts_without_whitespace rest ->
    SentenceSplit rest units ->
    SentenceSplit ((u ++ [t]) ++ ws ++ rest) ((u ++ [t]) :: units).

(** The specification's wording of the submission: the units paired with
    their indices, those that are empty after trimming left out, each
    submitted trimmed after 100 ms times its index. *)
Fixpoint indexed {A : Type} (i : N) (l : list A) : list (N * A) :=
  match l with
  | [] => []
  | x :: r => (i, x) :: indexed (i + 1) r
  end.

Definition submissions_spec (sentences : list jsstring) : list Timer :=
  List.map (fun p => mkTimer (100 * fst p) (trim (snd p)))
    (filter (fun p => truthy (trim (snd p))) (indexed 0 sentences)).

(** ** The translation queue: data *)

Record TranslationItem := mkItem { source : jsstring; translated : jsstring }.

(** A part of a synthesis response and its inline payload.  The media type
    of a payload is optional in a response: [None] is an [inlineData] whose
    [mimeType] is [undefined]. *)
Record Blob := mkBlob { mimeType : option jsstring; data : jsstring }.
Record Part := mkPart { inlineData : option Blob }.

(** A call of [ai.models.generateContent]: by [translateWithGemini] with the
    text to translate in its prompt, or by [speakWithGemini] with the text
    to speak. *)
Inductive Request :=
| TranslateRequest (text : jsstring)
| SpeechRequest (text : jsstring).

(** A promise as the caller that awaits it sees it: already resolved with a
    value, or waiting for the network. *)
Inductive Promise (A : Type) :=
| Resolved (v : A)
| Pending.
Arguments Resolved {A} v.
Arguments Pending {A}.

(** How a network call ends. *)
Inductive Completion (A : Type) :=
| Fulfilled (v : A)
| Rejected (message : jsstring).
Arguments Fulfilled {A} v.
Arguments Rejected {A} message.

(** The [await] at which an invocation of [processQueue] is suspended, with
    the local variables that are live there. *)
Inductive Await :=
| AwaitTranslate (chunk : jsstring) (p : Promise (option jsstring))
| AwaitSpeak (chunk translated : jsstring) (p : Promise unit).

(** A suspended invocation of [processQueue]; [apiKey] is the value of the
    state variable in the render whose closures the invocation runs. *)
Record Task := mkTask { apiKey : jsstring; awaiting : Await }.

(** Modelled from the spec: [AudioStreamer] of [./lib/audio-streamer], which
    accepts raw PCM16 byte buffers and schedules them in the order in which
    they are handed over.  The model keeps the buffers received by
    [addPCM16], oldest first. *)
Definition AudioStreamer := list (list N).

Definition addPCM16 (a : AudioStreamer) (chunk : list N) : AudioStreamer :=
  a ++ [chunk].

(** Modelled from the spec: [base64ToArrayBuffer] of [./lib/utils], the
    base64 decoding of a payload to raw bytes ([atob] and a copy of the
    character codes).  [None] stands for the exception on malformed input. *)
Definition base64_value (c : N) : option N :=
  if (65 <=? c) && (c <=? 90) then Some (c - 65)
  else if (97 <=? c) && (c <=? 122) then Some (c - 71)
  else if (48 <=? c) && (c <=? 57) then Some (c + 4)
  else if c =? 43 then Some 62
  else if c =? 47 then Some 63
  else None.

Fixpoint sextets (s : jsstring) : option (list N) :=
  match s with
  | [] => Some []
  | c :: r =>
      match base64_value c, sextets r with
      | Some v, Some vs => Some (v :: vs)
      | _, _ => None
      end
  end.

Fixpoint bytes_of_sextets (l : list N) : list N :=
  match l with
  | a :: b :: c :: d :: r =>
      let n := a * 262144 + b * 4096 + c * 64 + d in
      (n / 65536) :: ((n / 256) mod 256) :: (n mod 256) :: bytes_of_sextets r
  | [a; b; c] =>
      let n := a * 4096 + b * 64 + c in
      [n / 1024; (n / 4) mod 256]
  | [a; b] => [(a * 64 + b) / 16]
  | _ => []
  end.

Definition is_ascii_whitespace (c : N) : bool :=
  (c =? 9) || (c =? 10) || (c =? 12) || (c =? 13) || (c =? 32).

Definition strip_padding (s : jsstring) : jsstring :=
  if (N.of_nat (length s) mod 4 =? 0)
  then match rev s with
       | 61 :: 61 :: r => rev r
       | 61 :: r => rev r
       | _ => s
       end
  else s.

Definition base64ToArrayBuffer (base64 : jsstring) : option (list N) :=
  let s := strip_padding (filter (fun c => negb (is_ascii_whitespace c)) base64) in
  if (N.of_nat (length s) mod 4 =? 1) then None
  else option_map bytes_of_sextets (sextets s).

(** The mutable state that the queue reads and writes, and the effects it
    has on the outside. *)
Record State := mkState {
  translationQueue : list jsstring;          (* translationQueue.current *)
  processingQueue : bool;                    (* processingQueue.current *)
  translations : list TranslationItem;       (* the [translations] state *)
  statusLog : list jsstring;                 (* every [setStatus], oldest first *)
  audioStreamerRef : option AudioStreamer;   (* audioStreamerRef.current *)
  network : list Request;                    (* every [generateContent], oldest first *)
  tasks : list Task                          (* suspended [processQueue] calls *)
}.

Definition initial : State :=
  mkState [] false [] [] None [] [].

Definition set_queue (q : list jsstring) (st : State) : State :=
  mkState q (processingQueue st) (translations st) (statusLog st)
    (audioStreamerRef st) (network st) (tasks st).

Definition set_processing (b : bool) (st : State) : State :=
  mkState (translationQueue st) b (translations st) (statusLog st)
    (audioStreamerRef st) (network st) (tasks st).

Definition setTranslations (f : list TranslationItem -> list TranslationItem)
  (st : State) : State :=
  mkState (translationQueue st) (processingQueue st) (f (translations st))
    (statusLog st) (audioStreamerRef st) (network st) (tasks st).

Definition setStatus (s : jsstring) (st : State) : State :=
  mkState (translationQueue st) (processingQueue st) (translations st)
    (statusLog st ++ [s]) (audioStreamerRef st) (network st) (tasks st).

Definition set_audio (a : option AudioStreamer) (st : State) : State :=
  mkState (translationQueue st) (processingQueue st) (translations st)
    (statusLog st) a (network st) (tasks st).

Definition generateContent (r : Request) (st : State) : State :=
  mkState (translationQueue st) (processingQueue st) (translations st)
    (statusLog st) (audioStreamerRef st) (network st ++ [r]) (tasks st).

Definition set_tasks (ts : list Task) (st : State) : State :=
  mkState (translationQueue st) (processingQueue st) (translations st)
    (statusLog st) (audioStreamerRef st) (network st) ts.

Definition STATUS_TRANSLATING : jsstring := js "Translating...".
Definition STATUS_SPEAKING : jsstring := js "Speaking...".
Definition STATUS_IDLE : jsstring := js "Idle".
Definition STATUS_MISSING_KEY : jsstring := js "Missing Gemini API Key".
Definition STATUS_ERROR (message : jsstring) : jsstring := js "Error: " ++ message.

(** ** The translation queue: operations *)

(** [initAudioStreamer]: the streamer is created on first use only. *)
Definition initAudioStreamer (st : State) : State :=
  match audioStreamerRef st with
  | None => set_audio (Some []) st
  | Some _ => st
  end.

(** [translateWithGemini] up to its [await]: without a key it sets the status
    and returns [null]; otherwise it issues the request. *)
Definition translateWithGemini (key text : jsstring) (st : State)
  : State * Promise (option jsstring) :=
  if negb (truthy key) then (setStatus STATUS_MISSING_KEY st, Resolved None)
  else (generateContent (TranslateRequest text) st, Pending).

(** [response.text?.trim() || null]; [None] is both [undefined] as an input
    and [null] as a result. *)
Definition translation_of_response (text : option jsstring) : option jsstring :=
  match text with
  | None => None
  | Some t => if truthy (trim t) then Some (trim t) else None
  end.

(** [speakWithGemini] up to its [await]. *)
Definition speakWithGemini (key text : jsstring) (st : State)
  : State * Promise unit :=
  if negb (truthy key) then (st, Resolved tt)
  else (generateContent (SpeechRequest text) st, Pending).

Definition AUDIO : jsstring := js "audio".

(** The [for (const part of parts)] loop of [speakWithGemini].  The boolean
    tells whether an exception left the loop (to the [catch] of
    [speakWithGemini], which logs it to the console): the call of
    [startsWith] on a media type that is [undefined] throws, and so does
    the decoding of a payload that is not base64. *)
Fixpoint feed_parts (parts : list Part) (streamer : option AudioStreamer)
  : option AudioStreamer * bool :=
  match parts with
  | [] => (streamer, false)
  | part :: r =>
      match inlineData part with
      | Some blob =>
          match mimeType blob with
          | None => (streamer, true)
          | Some type =>
              if startsWith type AUDIO then
                match base64ToArrayBuffer (data blob) with
                | None => (streamer, true)
                | Some buffer =>
                    feed_parts r
                      (option_map (fun a => addPCM16 a buffer) streamer)
                end
              else feed_parts r streamer
          end
      | None => feed_parts r streamer
      end
  end.

(** [speakWithGemini] after its [await]: [parts] is
    [response.candidates?.[0]?.content?.parts]. *)
Definition speak_response (parts : option (list Part)) (st : State) : State :=
  match parts with
  | None => st
  | Some ps => set_audio (fst (feed_parts ps (audioStreamerRef st))) st
  end.

(** The [while] loop of [processQueue] from its head to the next [await]
    ([Some]) or to its exit ([None]). *)
Fixpoint processQueue_loop (key : jsstring) (queue : list jsstring) (st : State)
  : State * option Await :=
  match queue with
  | [] => (set_queue [] st, None)
  | chunk :: queue' =>
      if truthy chunk then
        let st1 := setStatus STATUS_TRANSLATING (set_queue queue' st) in
        let (st2, p) := translateWithGemini key chunk st1 in
        (st2, Some (AwaitTranslate chunk p))
      else processQueue_loop key queue' st
  end.

(** [processQueue] from the loop head: it suspends as a task, or leaves the
    loop, sets the status to idle and clears the flag. *)
Definition processQueue_run (key : jsstring) (st : State) : State :=
  match processQueue_loop key (translationQueue st) st with
  | (st', Some a) => set_tasks (tasks st' ++ [mkTask key a]) st'
  | (st', None) => set_processing false (setStatus STATUS_IDLE st')
  end.

Definition processQueue (key : jsstring) (st : State) : State :=
  if processingQueue st then st
  else processQueue_run key (set_processing true st).

Definition enqueueTranslation (key text : jsstring) (st : State) : State :=
  if negb (truthy text) then st
  else
    let st1 := set_queue (translationQueue st ++ [text]) st in
    if negb (processingQueue st1) then processQueue key st1 else st1.

(** The body of the loop after [await translateWithGemini(chunk)]. *)
Definition after_translate (key chunk : jsstring)
  (c : Completion (option jsstring)) (st : State) : State :=
  match c with
  | Fulfilled (Some translated) =>
      if truthy translated then
        let st1 := setTranslations (fun prev => prev ++ [mkItem chunk translated]) st in
        let st2 := setStatus STATUS_SPEAKING st1 in
        let (st3, p) := speakWithGemini key translated st2 in
        set_tasks (tasks st3 ++ [mkTask key (AwaitSpeak chunk translated p)]) st3
      else processQueue_run key st
  | Fulfilled None => processQueue_run key st
  | Rejected message => processQueue_run key (setStatus (STATUS_ERROR message) st)
  end.

(** The body of the loop after [await speakWithGemini(translated)], whose
    promise never rejects: [speakWithGemini] catches what its body throws. *)
Definition after_speak (key : jsstring) (c : Completion (option (list Part)))
  (st : State) : State :=
  match c with
  | Fulfilled parts => processQueue_run key (speak_response parts st)
  | Rejected _ => processQueue_run key st
  end.

(** ** The event loop

    JavaScript runs one job at a time, to completion.  An event is one job
    that touches the queue: a callback that calls [enqueueTranslation]
    ([EvEnqueue], with the API key captured by the closure it calls), the
    resumption of an invocation whose awaited promise was already resolved
    ([EvMicrotask]), or the settlement of the network call an invocation
    waits for.  The continuation of [translateWithGemini] or
    [speakWithGemini] and the continuation of [processQueue] that follows it
    are one event: the first touches no state that another job reads before
    the second runs.  Events may arrive in any order; an event addressed to
    a task that does not wait for it changes nothing. *)

Inductive Event :=
| EvInitAudioStreamer
| EvEnqueue (key text : jsstring)
| EvMicrotask (i : nat)
| EvTranslateResponse (i : nat) (text : option jsstring)
| EvTranslateError (i : nat) (message : jsstring)
| EvSpeakResponse (i : nat) (parts : option (list Part))
| EvSpeakError (i : nat) (message : jsstring).

Fixpoint remove_nth {A : Type} (i : nat) (l : list A) : list A :=
  match l, i with
  | [], _ => []
  | _ :: r, O => r
  | x :: r, S j => x :: remove_nth j r
  end.

(** Task [i] leaves the set of suspended tasks and runs [k]; an event for a
    task that does not wait for it changes nothing. *)
Definition resume (i : nat) (k : Task -> option (State -> State)) (st : State)
  : State :=
  match nth_error (tasks st) i with
  | None => st
  | Some t =>
      match k t with
      | None => st
      | Some f => f (set_tasks (remove_nth i (tasks st)) st)
      end
  end.

Definition step (st : State) (ev : Event) : State :=
  match ev with
  | EvInitAudioStreamer => initAudioStreamer st
  | EvEnqueue key text => enqueueTranslation key text st
  | EvMicrotask i =>
      resume i (fun t =>
        match awaiting t with
        | AwaitTranslate chunk (Resolved v) =>
            Some (after_translate (apiKey t) chunk (Fulfilled v))
        | AwaitSpeak _ _ (Resolved _) => Some (processQueue_run (apiKey t))
        | _ => None
        end) st
  | EvTranslateResponse i text =>
      resume i (fun t =>
        match awaiting t with
        | AwaitTranslate chunk Pending =>
            Some (after_translate (apiKey t) chunk
                    (Fulfilled (translation_of_response text)))
        | _ => None
        end) st
  | EvTranslateError i message =>
      resume i (fun t =>
        match awaiting t with
        | AwaitTranslate chunk Pending =>
            Some (after_translate (apiKey t) chunk (Rejected message))
        | _ => None
        end) st
  | EvSpeakResponse i parts =>
      resume i (fun t =>
        match awaiting t with
        | AwaitSpeak _ _ Pending => Some (after_speak (apiKey t) (Fulfilled parts))
        | _ => None
        end) st
  | EvSpeakError i message =>
      resume i (fun t =>
        match awaiting t with
        | AwaitSpeak _ _ Pending => Some (after_speak (apiKey t) (Rejected message))
        | _ => None
        end) st
  end.

Definition exec_from (st : State) (trace : list Event) : State :=
  fold_left step trace st.

Definition exec (trace : list Event) : State := exec_from initial trace.

(** * Vocabulary of the properties *)

(** A cue whose spoken line is a number, and one whose spoken line begins
    with NOTE. *)
Definition numeric_speech_cues : jsstring :=
  join LF (List.map js
    [ "WEBVTT"; "1"; "00:00:00.000 --> 00:00:02.000"; "42";
      "2"; "00:00:02.000 --> 00:00:04.000"; "NOTE the exit on your left." ])%string.

(** What [split_loop] knows about the code unit before the position: it is
    the last code unit of [unit], and after a separator it is whitespace. *)
Definition prev_of (unit : jsstring) (prev : option N) : Prop :=
  (forall u x, unit = u ++ [x] -> prev = Some x)
  /\ (unit = [] -> forall t, prev = Some t -> is_sentence_end t = false).

(** The segment an invocation is translating, if it is at that stage. *)
Definition translating (t : Task) : list jsstring :=
  match awaiting t with
  | AwaitTranslate chunk _ => [chunk]
  | AwaitSpeak _ _ _ => []
  end.

Definition in_translation (st : State) : list jsstring :=
  flat_map translating (tasks st).

(** The segments that have no translation result yet, oldest first. *)
Definition pending (st : State) : list jsstring :=
  in_translation st ++ translationQueue st.


(** The segments that the calls of [enqueueTranslation] in a trace put into
    the queue, in call order. *)
Definition enqueued_by (ev : Event) : list jsstring :=
  match ev with
  | EvEnqueue _ text => if truthy text then [text] else []
  | _ => []
  end.

Definition enqueued (trace : list Event) : list jsstring :=
  flat_map enqueued_by trace.

(** The items produced for a list of segments with their translations
    ([None]: no translation was produced). *)
Definition produced (done : list (jsstring * option jsstring))
  : list TranslationItem :=
  flat_map (fun d => match snd d with
                     | Some t => [mkItem (fst d) t]
                     | None => []
                     end) done.

(** The shape of the states the queue reaches: no invocation and an empty
    queue while the flag is clear, exactly one invocation while it is set,
    and no empty segment in the queue. *)
Definition single_flight (st : State) : Prop :=
  (processingQueue st = false -> tasks st = [] /\ translationQueue st = [])
  /\ (processingQueue st = true -> exists t, tasks st = [t])
  /\ Forall (fun c => truthy c = true) (translationQueue st).

(** The account of the enqueued segments [enq]: those in [done] are past
    their translation stage, the others wait, in the same order. *)
Definition accounted (enq : list jsstring)
  (done : list (jsstring * option jsstring)) (st : State) : Prop :=
  enq = List.map fst done ++ pending st
  /\ translations st = produced done.

(** A state in which an invocation of [processQueue] is running (it is not
    in [tasks]) and no other exists. *)
Definition running (st : State) : Prop :=
  processingQueue st = true /\ tasks st = []
  /\ Forall (fun c => truthy c = true) (translationQueue st).

(** A request of the translation stage, not of the synthesis stage. *)
Definition is_translate_request (r : Request) : Prop :=
  match r with TranslateRequest _ => True | SpeechRequest _ => False end.

(** The status updates of the path on which nothing fails. *)
Definition quiet_status (s : jsstring) : Prop :=
  s = STATUS_TRANSLATING \/ s = STATUS_MISSING_KEY \/ s = STATUS_IDLE.




(** The specification's wording: a part is kept when its media type starts
    with the audio prefix; its payload is the base64 decoding of its data. *)
Definition is_audio_part (part : Part) : bool :=
  match inlineData part with
  | Some blob =>
      match mimeType blob with
      | Some type => startsWith type AUDIO
      | None => false
      end
  | None => false
  end.

Definition part_payload (part : Part) : option (list N) :=
  match inlineData part with
  | Some blob => base64ToArrayBuffer (data blob)
  | None => None
  end.


(** The payload carries a media type, if the part has a payload. *)
Definition has_media_type (part : Part) : bool :=
  match inlineData part with
  | Some blob => match mimeType blob with Some _ => true | None => false end
  | None => true
  end.

(** The parts at which the loop body throws: a payload without a media
    type, and an audio payload that does not decode. *)
Definition throws (part : Part) : bool :=
  match inlineData part with
  | Some blob =>
      match mimeType blob with
      | None => true
      | Some _ =>
          is_audio_part part
          && match part_payload part with Some _ => false | None => true end
      end
  | None => false
  end.

(** The decoded payloads of the audio parts of a list, in its order. *)
Definition audio_payloads (parts : list Part) : list (list N) :=
  flat_map (fun part => if is_audio_part part
                        then match part_payload part with
                             | Some buffer => [buffer]
                             | None => []
                             end
                        else []) parts.

(** The parts come to an end, or go on with a part that throws. *)
Definition stops_at (rest : list Part) : Prop :=
  match rest with
  | [] => True
  | part :: _ => throws part = true
  end.

Definition is_nil {A : Type} (l : list A) : bool :=
  match l with [] => true | _ :: _ => false end.



(** Two segments; the synthesis of the first one fails. *)
Definition failing_synthesis_trace : list Event :=
  [ EvEnqueue (js "key") (js "one"); EvEnqueue (js "key") (js "two");
    EvTranslateResponse 0 (Some (js "uno"));
    EvSpeakError 0 (js "503 unavailable") ].

(** ** Schedules

    A segment together with what the two services answer for it: the text of
    the translation response or the error of that call, and the parts of
    the synthesis response or the error of that call (not asked for when no
    translation is produced). *)
Record Job := mkJob {
  job_text : jsstring;
  job_translation : Completion (option jsstring);
  job_speech : Completion (option (list Part))
}.

(** What [translateWithGemini] returns for the job ([None]: nothing, or it
    threw). *)
Definition job_result (j : Job) : option jsstring :=
  match job_translation j with
  | Fulfilled text => translation_of_response text
  | Rejected _ => None
  end.

Definition translate_event (j : Job) : Event :=
  match job_translation j with
  | Fulfilled text => EvTranslateResponse 0 text
  | Rejected message => EvTranslateError 0 message
  end.

Definition speech_event (j : Job) : Event :=
  match job_speech j with
  | Fulfilled parts => EvSpeakResponse 0 parts
  | Rejected message => EvSpeakError 0 message
  end.

(** The items of the jobs that have a translation, in the order of the jobs. *)
Definition job_items (jobs : list Job) : list TranslationItem :=
  flat_map (fun j => match job_result j with
                     | Some translated => [mkItem (job_text j) translated]
                     | None => []
                     end) jobs.

(** The error statuses of the jobs whose translation call failed. *)
Definition job_errors (jobs : list Job) : list jsstring :=
  flat_map (fun j => match job_translation j with
                     | Fulfilled _ => []
                     | Rejected message => [STATUS_ERROR message]
                     end) jobs.

(** The latencies of a run, as the order in which things happen: the next
    segment arrives (a call of [enqueueTranslation]), or the network call
    that is in flight settles. *)
Inductive Move := Arrive | Settle.

(** The events of a run in which the segments of [arriving] arrive in their
    order, through closures with the key [key], and every call is answered
    as the job says, in the interleaving [moves].  A call can only settle
    when it has been made: the translation of the oldest segment of
    [waiting], the arrived segments that have no translation result yet, or
    the synthesis of [speaking].  [None]: the moves do not describe a
    complete run. *)
Fixpoint schedule (key : jsstring) (moves : list Move)
  (arriving waiting : list Job) (speaking : option Job)
  : option (list Event) :=
  match moves with
  | [] =>
      match arriving, waiting, speaking with
      | [], [], None => Some []
      | _, _, _ => None
      end
  | Arrive :: moves' =>
      match arriving with
      | j :: arriving' =>
          option_map (cons (EvEnqueue key (job_text j)))
            (schedule key moves' arriving' (waiting ++ [j]) speaking)
      | [] => None
      end
  | Settle :: moves' =>
      match speaking with
      | Some j =>
          option_map (cons (speech_event j))
            (schedule key moves' arriving waiting None)
      | None =>
          match waiting with
          | j :: waiting' =>
              option_map (cons (translate_event j))
                (schedule key moves' arriving waiting'
                   (match job_result j with Some _ => Some j | None => None end))
          | [] => None
          end
      end
  end.

(** The state of the queue at a point of a schedule. *)
Definition at_position (key : jsstring) (st : State) (waiting : list Job)
  (speaking : option Job) : Prop :=
  match speaking with
  | Some j =>
      exists translated,
        job_result j = Some translated
        /\ processingQueue st = true
        /\ tasks st = [mkTask key (AwaitSpeak (job_text j) translated Pending)]
        /\ translationQueue st = List.map job_text waiting
  | None =>
      match waiting with
      | [] => processingQueue st = false /\ tasks st = []
              /\ translationQueue st = []
      | j :: waiting' =>
          processingQueue st = true
          /\ tasks st = [mkTask key (AwaitTranslate (job_text j) Pending)]
          /\ translationQueue st = List.map job_text waiting'
      end
  end.

(** An invocation that is at the synthesis stage of a segment has appended
    the item of that segment, and it is the last one. *)
Definition stage_has_item (st : State) (t : Task) : Prop :=
  match awaiting t with
  | AwaitSpeak chunk translated _ =>
      exists items, translations st = items ++ [mkItem chunk translated]
  | AwaitTranslate _ _ => True
  end.

Definition speaking_has_item (st : State) : Prop :=
  Forall (stage_has_item st) (tasks st).

(** The segment is not empty; the job has a translation. *)
Definition job_ok (j : Job) : bool := truthy (job_text j).


(** Three segments: the translation of the second one fails, and so does
    the synthesis of the third; the second arrives while the first is
    translated, the third while the first is spoken. *)
Definition example_jobs : list Job :=
  [ mkJob (js "one") (Fulfilled (Some (js " uno "))) (Fulfilled None);
    mkJob (js "two") (Rejected (js "429 quota")) (Fulfilled None);
    mkJob (js "three") (Fulfilled (Some (js "tres")))
      (Rejected (js "503 unavailable")) ].

Definition example_moves : list Move :=
  [Arrive; Arrive; Settle; Arrive; Settle; Settle; Settle; Settle].



Definition example_trace : list Event :=
  [ EvEnqueue (js "key") (js "one"); EvEnqueue (js "key") (js "two");
    EvTranslateResponse 0 (Some (js " uno "));
    EvEnqueue (js "key") (js "three");
    EvSpeakResponse 0 None;
    EvTranslateError 0 (js "429 quota");
    EvTranslateResponse 0 (Some (js "tres"));
    EvSpeakError 0 (js "503 unavailable") ].


(** * The rest of the component, and the vocabulary of its properties *)

(** ** Trimming *)

(** A string that neither starts nor ends with whitespace. *)
Definition clean_ends (s : jsstring) : Prop :=
  starts_without_whitespace s /\ starts_without_whitespace (rev s).

(** ** The prose that [parseVTT] returns *)

(** The lines that [parseVTT] keeps, trimmed. *)
Definition kept_lines (lines : list jsstring) : list jsstring :=
  filter (fun l => negb (is_discarded l)) (List.map trim lines).

Definition no_line_feed (s : jsstring) : bool :=
  forallb (fun c => negb (c =? 10)) s.

(** The same cues, once with Windows line ends and indentation and once
    without. *)
Definition crlf_cue_lines : list jsstring :=
  List.map js [ "WEBVTT"; ""; "1"; "00:00:00.000 --> 00:00:02.000";
                "Hello there." ]%string.

Definition padded_cue_lines : list jsstring :=
  List.map (fun l => js "  " ++ l ++ [13]) crlf_cue_lines.

(** ** The timers of an imported transcript *)

(** The arguments of the calls of [enqueueTranslation] in a trace, in call
    order. *)
Definition enqueue_calls (trace : list Event) : list jsstring :=
  flat_map (fun ev => match ev with
                      | EvEnqueue _ text => [text]
                      | _ => []
                      end) trace.

(** The timers of the specification's example, firing in delay order, each
    followed by the answers of the two stages. *)
Definition example_import_trace : list Event :=
  [ EvEnqueue (js "key") (js "Hello there.");
    EvTranslateResponse 0 (Some (js "Hola."));
    EvEnqueue (js "key") (js "How are you?");
    EvSpeakResponse 0 None ].

(** ** What the queue keeps and what it asks for *)

(** The texts of the synthesis requests and of the translation requests of
    a network log, oldest first. *)
Definition speech_texts (log : list Request) : list jsstring :=
  flat_map (fun r => match r with SpeechRequest t => [t] | _ => [] end) log.

Definition translate_texts (log : list Request) : list jsstring :=
  flat_map (fun r => match r with TranslateRequest t => [t] | _ => [] end) log.

(** The later state has the items and the audio of the earlier one, and
    possibly more behind them. *)
Definition grows (st st' : State) : Prop :=
  (exists items, translations st' = translations st ++ items)
  /\ (forall a, audioStreamerRef st = Some a ->
        exists buffers, audioStreamerRef st' = Some (a ++ buffers)).

(** A part whose payload is not base64, between two parts that decode. *)
Definition broken_parts : list Part :=
  [ mkPart (Some (mkBlob (Some (js "audio/pcm")) (js "AQID")));
    mkPart (Some (mkBlob (Some (js "audio/pcm")) (js "****")));
    mkPart (Some (mkBlob (Some (js "audio/pcm")) (js "/w=="))) ].

(** ** Items, requests and keys *)

(** An item as the queue produces them. *)
Definition item_ok (it : TranslationItem) : Prop :=
  truthy (source it) = true /\ truthy (translated it) = true
  /\ trim (translated it) = translated it.

(** What a suspended invocation waits for agrees with its key: without a key
    it waits on the [null] returned at once, with a key on the network. *)
Definition task_ok (t : Task) : Prop :=
  match awaiting t with
  | AwaitTranslate chunk (Resolved v) =>
      truthy chunk = true /\ v = None /\ truthy (apiKey t) = false
  | AwaitTranslate chunk Pending =>
      truthy chunk = true /\ truthy (apiKey t) = true
  | AwaitSpeak _ _ (Resolved _) => False
  | AwaitSpeak _ _ Pending => truthy (apiKey t) = true
  end.

Definition quality (st : State) : Prop :=
  Forall task_ok (tasks st)
  /\ Forall item_ok (translations st)
  /\ speech_texts (network st) = List.map translated (translations st).

(** ** Requests with a key, and progress *)

(** The calls of [enqueueTranslation] of an event are made through closures
    that captured an API key. *)
Definition keyed (ev : Event) : bool :=
  match ev with
  | EvEnqueue key _ => truthy key
  | _ => true
  end.

Definition in_synthesis (t : Task) : bool :=
  match awaiting t with
  | AwaitSpeak _ _ _ => true
  | AwaitTranslate _ _ => false
  end.

(** The stage completions that are still to come: two for a segment that
    waits for its translation, one for a segment in synthesis. *)
Definition work (st : State) : nat :=
  2 * length (pending st) + length (filter in_synthesis (tasks st)).

(** The event settles what the only suspended invocation waits for. *)
Definition awaited_by (t : Task) (ev : Event) : bool :=
  match awaiting t, ev with
  | AwaitTranslate _ (Resolved _), EvMicrotask O => true
  | AwaitTranslate _ Pending, EvTranslateResponse O _ => true
  | AwaitTranslate _ Pending, EvTranslateError O _ => true
  | AwaitSpeak _ _ (Resolved _), EvMicrotask O => true
  | AwaitSpeak _ _ Pending, EvSpeakResponse O _ => true
  | AwaitSpeak _ _ Pending, EvSpeakError O _ => true
  | _, _ => false
  end.

(** Three segments enqueued with a key; the translation of the first fails. *)
Definition keyed_trace : list Event :=
  [ EvEnqueue (js "key") (js "one"); EvEnqueue (js "key") (js "two");
    EvTranslateError 0 (js "429"); EvEnqueue (js "key") (js "three") ].

Definition keyed_requests (enq : list jsstring) (st : State) : Prop :=
  translate_texts (network st) ++ translationQueue st = enq
  /\ Forall (fun t => truthy (apiKey t) = true) (tasks st).

(** ** The rest of the component: data *)

(** [a === b] on strings. *)
Fixpoint jsstring_eqb (a b : jsstring) : bool :=
  match a, b with
  | [], [] => true
  | x :: a', y :: b' => (x =? y) && jsstring_eqb a' b'
  | _, _ => false
  end.

(** A number in a template literal, for the natural numbers. *)
Fixpoint decimal_digits (fuel : nat) (n : N) : jsstring :=
  match fuel with
  | O => []
  | S fuel' =>
      if n <? 10 then [48 + n]
      else decimal_digits fuel' (n / 10) ++ [48 + n mod 10]
  end.

Definition decimal (n : N) : jsstring :=
  decimal_digits (S (N.to_nat (N.log2 n))) n.

(** [encodeURIComponent]: the unreserved characters stay, every other code
    point becomes the percent-encoded bytes of its UTF-8 form; a surrogate
    without its partner raises a URIError ([None]). *)
Definition uri_unreserved (c : N) : bool :=
  (65 <=? c) && (c <=? 90) || (97 <=? c) && (c <=? 122)
  || (48 <=? c) && (c <=? 57)
  || (c =? 45) || (c =? 95) || (c =? 46) || (c =? 33) || (c =? 126)
  || (c =? 42) || (c =? 39) || (c =? 40) || (c =? 41).

Definition hex_digit (d : N) : N := if d <? 10 then 48 + d else 55 + d.

Definition percent (byte : N) : jsstring :=
  [37; hex_digit (byte / 16); hex_digit (byte mod 16)].

Definition utf8 (cp : N) : list N :=
  if cp <? 128 then [cp]
  else if cp <? 2048 then [192 + cp / 64; 128 + cp mod 64]
  else if cp <? 65536 then
    [224 + cp / 4096; 128 + (cp / 64) mod 64; 128 + cp mod 64]
  else [240 + cp / 262144; 128 + (cp / 4096) mod 64;
        128 + (cp / 64) mod 64; 128 + cp mod 64].

Definition is_high_surrogate (c : N) : bool := (55296 <=? c) && (c <=? 56319).
Definition is_low_surrogate (c : N) : bool := (56320 <=? c) && (c <=? 57343).

Fixpoint encodeURIComponent (s : jsstring) : option jsstring :=
  match s with
  | [] => Some []
  | c :: r =>
      if uri_unreserved c then option_map (cons c) (encodeURIComponent r)
      else if is_low_surrogate c then None
      else if is_high_surrogate c then
        match r with
        | d :: r' =>
            if is_low_surrogate d then
              option_map
                (app (flat_map percent
                        (utf8 ((c - 55296) * 1024 + (d - 56320) + 65536))))
                (encodeURIComponent r')
            else None
        | [] => None
        end
      else option_map (app (flat_map percent (utf8 c))) (encodeURIComponent r)
  end.

(** An entry of [navigator.mediaDevices.enumerateDevices()]. *)
Module MediaDeviceInfo.
Record t := mk { deviceId : jsstring; kind : jsstring; label : jsstring }.
End MediaDeviceInfo.

Record AudioDevice := mkAudioDevice { deviceId : jsstring; label : jsstring }.

(** A call of [fetch]: the URL and the [Authorization] header. *)
Record Fetch := mkFetch { fetch_url : jsstring; authorization : option jsstring }.

(** The state of the component beside the queue. *)
Record App := mkApp {
  core : State;
  finalTranscript : jsstring;
  interimTranscript : jsstring;
  isFetchingZoom : bool;
  timeouts : list Timer;                (* the [setTimeout] calls, oldest first *)
  fetches : list Fetch;                 (* the [fetch] calls, oldest first *)
  inputDevices : list AudioDevice;
  outputDevices : list AudioDevice
}.

Definition set_core (c : State) (app : App) : App :=
  mkApp c (finalTranscript app) (interimTranscript app) (isFetchingZoom app)
    (timeouts app) (fetches app) (inputDevices app) (outputDevices app).

Definition setFinalTranscript (f : jsstring -> jsstring) (app : App) : App :=
  mkApp (core app) (f (finalTranscript app)) (interimTranscript app)
    (isFetchingZoom app) (timeouts app) (fetches app) (inputDevices app)
    (outputDevices app).

Definition setInterimTranscript (s : jsstring) (app : App) : App :=
  mkApp (core app) (finalTranscript app) s (isFetchingZoom app)
    (timeouts app) (fetches app) (inputDevices app) (outputDevices app).

Definition setIsFetchingZoom (b : bool) (app : App) : App :=
  mkApp (core app) (finalTranscript app) (interimTranscript app) b
    (timeouts app) (fetches app) (inputDevices app) (outputDevices app).

Definition set_timeouts (ts : list Timer) (app : App) : App :=
  mkApp (core app) (finalTranscript app) (interimTranscript app)
    (isFetchingZoom app) ts (fetches app) (inputDevices app) (outputDevices app).

Definition fetch (url : jsstring) (auth : option jsstring) (app : App) : App :=
  mkApp (core app) (finalTranscript app) (interimTranscript app)
    (isFetchingZoom app) (timeouts app) (fetches app ++ [mkFetch url auth])
    (inputDevices app) (outputDevices app).

Definition setInputDevices (ds : list AudioDevice) (app : App) : App :=
  mkApp (core app) (finalTranscript app) (interimTranscript app)
    (isFetchingZoom app) (timeouts app) (fetches app) ds (outputDevices app).

Definition setOutputDevices (ds : list AudioDevice) (app : App) : App :=
  mkApp (core app) (finalTranscript app) (interimTranscript app)
    (isFetchingZoom app) (timeouts app) (fetches app) (inputDevices app) ds.

Definition app_setStatus (s : jsstring) (app : App) : App :=
  set_core (setStatus s (core app)) app.

(** ** The live adapter: [rec.onresult] *)

(** An entry of [event.results]: [res[0].transcript] and [res.isFinal]. *)
Record SpeechResult := mkSpeechResult { transcript : jsstring; isFinal : bool }.

Record ResultEvent := mkResultEvent {
  resultIndex : nat;
  results : list SpeechResult
}.

(** The [for] loop of [onresult] over the entries from [resultIndex] on. *)
Fixpoint onresult_loop (rs : list SpeechResult) (finalChunk interim : jsstring)
  : jsstring * jsstring :=
  match rs with
  | [] => (finalChunk, interim)
  | res :: r =>
      let txt := transcript res in
      if isFinal res then onresult_loop r (finalChunk ++ txt ++ SPACE) interim
      else onresult_loop r finalChunk (interim ++ txt)
  end.

(** [key] is the API key in the closure of the render that created the
    recognition object. *)
Definition onresult (key : jsstring) (event : ResultEvent) (app : App) : App :=
  let (finalChunk, interim) :=
    onresult_loop (skipn (resultIndex event) (results event)) [] [] in
  if truthy (trim finalChunk) then
    let app1 := setFinalTranscript (fun prev => prev ++ trim finalChunk ++ LF) app in
    let app2 := set_core (enqueueTranslation key (trim finalChunk) (core app1)) app1 in
    setInterimTranscript [] app2
  else setInterimTranscript interim app.

(** ** [enumerateAudioDevices] *)

Definition AUDIOINPUT : jsstring := js "audioinput".
Definition AUDIOOUTPUT : jsstring := js "audiooutput".

(** [d.label || `${prefix} ${d.deviceId.slice(0,5)}`]. *)
Definition label_or (prefix : jsstring) (d : MediaDeviceInfo.t) : jsstring :=
  if truthy (MediaDeviceInfo.label d) then MediaDeviceInfo.label d
  else prefix ++ SPACE ++ firstn 5 (MediaDeviceInfo.deviceId d).

Definition audio_devices (kind prefix : jsstring)
  (devices : list MediaDeviceInfo.t) : list AudioDevice :=
  List.map (fun d => mkAudioDevice (MediaDeviceInfo.deviceId d) (label_or prefix d))
    (filter (fun d => jsstring_eqb (MediaDeviceInfo.kind d) kind) devices).

(** [supported] is the test on [navigator.mediaDevices]; [enumerated] is how
    [enumerateDevices()] ends. *)
Definition enumerateAudioDevices (supported : bool)
  (enumerated : Completion (list MediaDeviceInfo.t)) (app : App) : App :=
  if negb supported then
    app_setStatus (js "Audio device enumeration not supported") app
  else
    match enumerated with
    | Fulfilled devices =>
        let inputs := audio_devices AUDIOINPUT (js "Microphone") devices in
        let outputs := audio_devices AUDIOOUTPUT (js "Speaker") devices in
        setOutputDevices outputs (setInputDevices inputs app)
    | Rejected _ => app_setStatus (js "Error accessing audio devices") app
    end.

(** ** [getLanguageLabel] *)

Definition language_map : list (jsstring * jsstring) :=
  List.map (fun p => (js (fst p), js (snd p)))
    [ ("en-US", "English"); ("tl-PH", "Filipino"); ("tr-TR", "Turkish");
      ("nl-BE", "Dutch"); ("fr-FR", "French"); ("de-DE", "German");
      ("es-ES", "Spanish") ]%string.

(** The options of the language selects: value and text. *)
Definition language_options : list (jsstring * jsstring) :=
  List.map (fun p => (js (fst p), js (snd p)))
    [ ("en-US", "English"); ("tl-PH", "Filipino"); ("tr-TR", "Turkish");
      ("nl-BE", "Dutch"); ("fr-FR", "French"); ("de-DE", "German");
      ("es-ES", "Spanish") ]%string.

(** The properties that an object literal inherits from [Object.prototype]:
    [map[code]] finds them when [code] is not a key of its own. *)
Definition inherited_properties : list jsstring :=
  List.map js
    [ "constructor"; "__proto__"; "hasOwnProperty"; "isPrototypeOf";
      "propertyIsEnumerable"; "toLocaleString"; "toString"; "valueOf";
      "__defineGetter__"; "__defineSetter__"; "__lookupGetter__";
      "__lookupSetter__" ]%string.

Fixpoint own_property (code : jsstring) (map : list (jsstring * jsstring))
  : option jsstring :=
  match map with
  | [] => None
  | (k, v) :: r => if jsstring_eqb k code then Some v else own_property code r
  end.

(** What [getLanguageLabel] returns: a string, or a member of
    [Object.prototype]. *)
Inductive LabelValue :=
| LabelString (s : jsstring)
| LabelInherited (name : jsstring).

Definition getLanguageLabel (code : jsstring) : LabelValue :=
  match own_property code language_map with
  | Some v => if truthy v then LabelString v else LabelString code
  | None =>
      if existsb (jsstring_eqb code) inherited_properties
      then LabelInherited code
      else LabelString code
  end.

(** ** [fetchZoomTranscript] *)

(** An entry of [recording_files]; [download_url] is [None] when the entry
    has no such field. *)
Record RecordingFile := mkRecordingFile {
  file_type : jsstring;
  download_url : option jsstring
}.

(** A response of [fetch]: its status, and how reading its body as text and
    as JSON ends; of the JSON only [recording_files] is read ([None] when
    the field is absent; [Rejected] also stands for a body whose shape makes
    the reads of the handler throw). *)
Record HttpResponse := mkHttpResponse {
  status : N;
  body_text : Completion jsstring;
  body_json : Completion (option (list RecordingFile))
}.

(** [resp.ok]. *)
Definition ok (resp : HttpResponse) : bool :=
  (200 <=? status resp) && (status resp <=? 299).

(** How the creation of the audio output ends when [initAudioStreamer] has
    to create it: [audioContext] may reject before the streamer exists, and
    [resume] or [setOutputDevice] after [audioStreamerRef.current] is set. *)
Inductive AudioInit :=
| AudioReady
| ContextFailed (message : jsstring)
| ResumeFailed (message : jsstring).

(** How the two requests and the creation of the audio output end. *)
Record ZoomEnv := mkZoomEnv {
  listResponse : Completion HttpResponse;
  downloadResponse : Completion HttpResponse;
  audioInit : AudioInit
}.

Definition CORS_PROXY : jsstring := js "https://corsproxy.io/?".
Definition TRANSCRIPT : jsstring := js "TRANSCRIPT".
Definition URI_MALFORMED : jsstring := js "URI malformed".
Definition NO_DOWNLOAD_URL : jsstring :=
  js "Cannot read properties of undefined (reading 'includes')".
Definition ZOOM_MISSING : jsstring := js "Zoom: Missing Token or Meeting ID".
Definition ZOOM_FETCHING : jsstring := js "Zoom: Fetching recordings...".
Definition ZOOM_DOWNLOADING : jsstring := js "Zoom: Downloading transcript...".
Definition ZOOM_EMPTY : jsstring := js "Zoom: Transcript was empty.".
Definition ZOOM_PROCESSING : jsstring := js "Zoom: Processing transcript...".
Definition ZOOM_LOADED : jsstring :=
  js "Zoom: Transcript loaded and queuing for translation.".
Definition ZOOM_NO_TRANSCRIPT : jsstring :=
  js "No transcript file found for this meeting.".
Definition ZOOM_ERROR (message : jsstring) : jsstring := js "Zoom Error: " ++ message.

Definition list_url (zoomMeetingId : jsstring) : jsstring :=
  js "https://api.zoom.us/v2/meetings/" ++ zoomMeetingId ++ js "/recordings".

(** The download URL with the token as a query parameter. *)
Definition download_url_with_token (downloadUrl zoomToken : jsstring) : jsstring :=
  let separator := if includes downloadUrl (js "?") then js "&" else js "?" in
  downloadUrl ++ separator ++ js "access_token=" ++ zoomToken.

Definition transcript_block (cleanText : jsstring) : jsstring :=
  LF ++ js "[ZOOM TRANSCRIPT START]" ++ LF ++ cleanText ++ LF
  ++ js "[ZOOM TRANSCRIPT END]" ++ LF.

(** How the [try] block ends: it returns, or it throws an error with a
    message. *)
Inductive Outcome :=
| Returned
| Thrown (message : jsstring).

(** [await initAudioStreamer()] where it may fail. *)
Definition initAudioStreamer_or_throw (a : AudioInit) (st : State)
  : State * Outcome :=
  match audioStreamerRef st with
  | Some _ => (st, Returned)
  | None =>
      match a with
      | AudioReady => (initAudioStreamer st, Returned)
      | ContextFailed message => (st, Thrown message)
      | ResumeFailed message => (set_audio (Some []) st, Thrown message)
      end
  end.

(** Steps 3 and 4 of the [try] block, from the text of the transcript. *)
Definition process_transcript (env : ZoomEnv) (vttText : jsstring) (app : App)
  : App * Outcome :=
  let cleanText := parseVTT vttText in
  if negb (truthy cleanText) then
    (setIsFetchingZoom false (app_setStatus ZOOM_EMPTY app), Returned)
  else
    let app1 := app_setStatus ZOOM_PROCESSING app in
    let app2 := setFinalTranscript (fun prev => prev ++ transcript_block cleanText) app1 in
    let sentences := split_sentences cleanText in
    match initAudioStreamer_or_throw (audioInit env) (core app2) with
    | (st, Thrown message) => (set_core st app2, Thrown message)
    | (st, Returned) =>
        let app3 := set_core st app2 in
        let app4 := set_timeouts (forEach_sentence 0 sentences (timeouts app3)) app3 in
        (app_setStatus ZOOM_LOADED app4, Returned)
    end.

(** Step 2 of the [try] block, from the transcript file. *)
Definition download_transcript (zoomToken : jsstring) (env : ZoomEnv)
  (transcriptFile : RecordingFile) (app : App) : App * Outcome :=
  let app1 := app_setStatus ZOOM_DOWNLOADING app in
  match download_url transcriptFile with
  | None => (app1, Thrown NO_DOWNLOAD_URL)
  | Some url =>
      let downloadUrl := download_url_with_token url zoomToken in
      match encodeURIComponent downloadUrl with
      | None => (app1, Thrown URI_MALFORMED)
      | Some component =>
          let app2 := fetch (CORS_PROXY ++ component) None app1 in
          match downloadResponse env with
          | Rejected message => (app2, Thrown message)
          | Fulfilled downResp =>
              if negb (ok downResp) then
                (app2, Thrown (js "Failed to download transcript file ("
                               ++ decimal (status downResp) ++ js ")."))
              else
                match body_text downResp with
                | Rejected message => (app2, Thrown message)
                | Fulfilled vttText => process_transcript env vttText app2
                end
          end
      end
  end.

(** The [try] block. *)
Definition zoom_try (zoomToken zoomMeetingId : jsstring) (env : ZoomEnv)
  (app : App) : App * Outcome :=
  match encodeURIComponent (list_url zoomMeetingId) with
  | None => (app, Thrown URI_MALFORMED)
  | Some component =>
      let app1 := fetch (CORS_PROXY ++ component) (Some (js "Bearer " ++ zoomToken)) app in
      match listResponse env with
      | Rejected message => (app1, Thrown message)
      | Fulfilled recResp =>
          if negb (ok recResp) then
            match body_text recResp with
            | Rejected message => (app1, Thrown message)
            | Fulfilled err =>
                (app1, Thrown (js "Zoom API Error (" ++ decimal (status recResp)
                               ++ js "): " ++ err))
            end
          else
            match body_json recResp with
            | Rejected message => (app1, Thrown message)
            | Fulfilled recording_files =>
                let files := match recording_files with
                             | Some l => l
                             | None => []
                             end in
                match find (fun f => jsstring_eqb (file_type f) TRANSCRIPT) files with
                | None => (app1, Thrown ZOOM_NO_TRANSCRIPT)
                | Some transcriptFile =>
                    download_transcript zoomToken env transcriptFile app1
                end
            end
      end
  end.

(** [fetchZoomTranscript], with the answers of the network given by [env]:
    the guard, the [try] block, its [catch] and its [finally].  The function
    is taken as one run: the jobs that the event loop runs during its awaits
    belong to the queue and write none of the fields that it reads back
    (the timers, the fetches, the final transcript, the flag). *)
Definition fetchZoomTranscript (zoomToken zoomMeetingId : jsstring)
  (env : ZoomEnv) (app : App) : App :=
  if negb (truthy zoomToken) || negb (truthy zoomMeetingId) then
    app_setStatus ZOOM_MISSING app
  else
    let app1 := app_setStatus ZOOM_FETCHING (setIsFetchingZoom true app) in
    let (app2, outcome) := zoom_try zoomToken zoomMeetingId env app1 in
    let app3 := match outcome with
                | Returned => app2
                | Thrown message => app_setStatus (ZOOM_ERROR message) app2
                end in
    setIsFetchingZoom false app3.

(** ** The live adapter *)

(** The entries of an event that its handler reads. *)
Definition read_results (event : ResultEvent) : list SpeechResult :=
  skipn (resultIndex event) (results event).

(** The segment of an event: its final transcripts, a space after each,
    trimmed. *)
Definition final_segment (event : ResultEvent) : jsstring :=
  trim (flat_map (fun r => transcript r ++ SPACE) (filter isFinal (read_results event))).

Definition interim_text (event : ResultEvent) : jsstring :=
  flat_map transcript (filter (fun r => negb (isFinal r)) (read_results event)).

(** An event with one old entry, two final entries and an interim one, and
    an event with interim entries only. *)
Definition final_event : ResultEvent :=
  mkResultEvent 1
    [ mkSpeechResult (js "old") true;
      mkSpeechResult (js " good morning") true;
      mkSpeechResult (js "every") false;
      mkSpeechResult (js "everyone ") true ].

Definition interim_event : ResultEvent :=
  mkResultEvent 1
    [ mkSpeechResult (js "old") true;
      mkSpeechResult (js "good ") false;
      mkSpeechResult (js "mor") false ].

(** ** The outcomes of [fetchZoomTranscript] *)

Definition ends_with_status (s : jsstring) (app : App) : Prop :=
  exists l, statusLog (core app) = l ++ [s].

(** The text of the transcript that the two requests deliver, if they do. *)
Definition delivered (env : ZoomEnv) (vtt : jsstring) : Prop :=
  exists resp, downloadResponse env = Fulfilled resp
               /\ body_text resp = Fulfilled vtt.

(** What the [try] block leaves, given the timers [T] and the transcript [F]
    it started with. *)
Definition zoom_post (env : ZoomEnv) (T : list Timer) (F : jsstring)
  (r : App) (o : Outcome) : Prop :=
  match o with
  | Returned =>
      (exists vtt, delivered env vtt /\ parseVTT vtt = []
                   /\ ends_with_status ZOOM_EMPTY r
                   /\ timeouts r = T /\ finalTranscript r = F)
      \/ (exists vtt, delivered env vtt /\ parseVTT vtt <> []
                      /\ ends_with_status ZOOM_LOADED r
                      /\ timeouts r = T ++ queue_sentences (parseVTT vtt)
                      /\ finalTranscript r = F ++ transcript_block (parseVTT vtt)
                      /\ audioStreamerRef (core r) <> None)
  | Thrown _ =>
      timeouts r = T
      /\ (finalTranscript r = F
          \/ (audioInit env <> AudioReady
              /\ exists vtt, delivered env vtt /\ parseVTT vtt <> []
                             /\ finalTranscript r = F ++ transcript_block (parseVTT vtt)))
  end.

(** A component that has done nothing yet. *)
Definition example_app : App := mkApp initial [] [] false [] [] [] [].

(** A listing with a transcript file and the download of the example cues. *)
Definition example_env : ZoomEnv :=
  mkZoomEnv
    (Fulfilled (mkHttpResponse 200 (Fulfilled [])
       (Fulfilled (Some [ mkRecordingFile (js "MP4") (Some (js "https://zoom.us/rec/1"));
                          mkRecordingFile (js "TRANSCRIPT")
                            (Some (js "https://zoom.us/rec/2?type=vtt")) ]))))
    (Fulfilled (mkHttpResponse 200 (Fulfilled example_cues) (Rejected [])))
    AudioReady.

(** ** The requests of [fetchZoomTranscript] *)

(** The characters that separate the parts of a URL and of its query. *)
Definition url_delimiter (c : N) : bool :=
  (c =? 32) || (c =? 35) || (c =? 38) || (c =? 43) || (c =? 47)
  || (c =? 58) || (c =? 59) || (c =? 61) || (c =? 63) || (c =? 64).

Definition one_component (s : jsstring) : bool :=
  forallb (fun c => negb (url_delimiter c)) s.

(** ** [startRecording] and the recognition object *)












(** * Properties *)

(** ** [parseVTT] *)

Section ParseVTT.

Lemma parseVTT_iter_discards (output : list jsstring) (line : jsstring) :
  parseVTT_iter output line =
  output ++ (if is_discarded (trim line) then [] else [trim line]).
Proof.
  unfold parseVTT_iter, is_discarded, is_blank_line, is_header_line,
    is_note_line, is_cue_index_line, is_time_range_line.
  destruct (truthy (trim line)); simpl; [| now rewrite app_nil_r].
  destruct (startsWith (trim line) WEBVTT); simpl; [now rewrite app_nil_r |].
  destruct (startsWith (trim line) NOTE); simpl; [now rewrite app_nil_r |].
  destruct (includes (trim line) ARROW); simpl.
  - rewrite orb_true_r. now rewrite app_nil_r.
  - rewrite orb_false_r.
    destruct (test_digits (trim line)); simpl; [now rewrite app_nil_r | reflexivity].
Qed.

Lemma parseVTT_loop (lines : list jsstring) (output : list jsstring) :
  fold_left parseVTT_iter lines output =
  output ++ filter (fun l => negb (is_discarded l)) (List.map trim lines).
Proof.
  revert output; induction lines as [| line lines IH]; intros output; simpl.
  - now rewrite app_nil_r.
  - rewrite IH, parseVTT_iter_discards.
    destruct (is_discarded (trim line)); simpl.
    + now rewrite app_nil_r.
    + now rewrite <- app_assoc.
Qed.

Lemma split_nl_nonempty (s : jsstring) : split_nl s <> [].
Proof.
  destruct s as [| c r]; simpl; [discriminate |].
  destruct (c =? 10); [discriminate |].
  destruct (split_nl r); discriminate.
Qed.

Lemma split_nl_app (a b : jsstring) :
  split_nl (a ++ LF ++ b) = split_nl a ++ split_nl b.
Proof.
  induction a as [| c a IH]; simpl; [reflexivity |].
  destruct (c =? 10); simpl.
  - now f_equal.
  - unfold LF in IH; simpl in IH; rewrite IH.
    pose proof (split_nl_nonempty a) as Hne.
    destruct (split_nl a); [congruence | reflexivity].
Qed.

Lemma split_nl_line (line : jsstring) :
  forallb (fun c => negb (c =? 10)) line = true -> split_nl line = [line].
Proof.
  induction line as [| c line IH]; simpl; [reflexivity |].
  intros H; apply andb_prop in H as [Hc Hl].
  destruct (c =? 10); [discriminate |].
  now rewrite (IH Hl).
Qed.

Lemma parseVTT_lines (vtt : jsstring) :
  parseVTT vtt =
  join SPACE (filter (fun l => negb (is_discarded l)) (List.map trim (split_nl vtt))).
Proof. unfold parseVTT. now rewrite parseVTT_loop. Qed.

End ParseVTT.

(** C7 (cue-document parsing).  [parseVTT] trims every line, discards the
    blank lines, the header lines, the note lines, the pure-numeric cue-index
    lines and the lines that contain the arrow, and joins the lines that are
    left with single spaces; on the two-cue document of the specification
    the result is exactly "Hello there. How are you?". *)
Theorem parseVTT_spoken_text :
  (forall vtt, parseVTT vtt = spoken_text_spec vtt)
  /\ parseVTT example_cues = js "Hello there. How are you?".
Proof.
  split.
  - intros vtt. apply parseVTT_lines.
  - vm_compute. reflexivity.
Qed.

(** C10 (line-shape filtering).  A line whose trimmed content is purely
    numeric, or starts with WEBVTT or with NOTE, is discarded whatever its
    role in the document: an iteration of the loop on it leaves the output
    as it is, the document parses as the document without the line, and a
    document whose spoken lines are "42" and "NOTE the exit on your left."
    parses to the empty string. *)
Theorem parseVTT_line_shape_only (line before after : jsstring) :
  forallb (fun c => negb (c =? 10)) line = true ->
  test_digits (trim line) = true
  \/ startsWith (trim line) WEBVTT = true
  \/ startsWith (trim line) NOTE = true ->
  (forall output, parseVTT_iter output line = output)
  /\ parseVTT (before ++ LF ++ line ++ LF ++ after)
     = parseVTT (before ++ LF ++ after)
  /\ parseVTT numeric_speech_cues = [].
Proof.
  intros Hline Hshape.
  assert (Hd : is_discarded (trim line) = true).
  { unfold is_discarded, is_header_line, is_note_line, is_cue_index_line.
    destruct Hshape as [H | [H | H]]; rewrite H;
      repeat (rewrite ?orb_true_r, ?orb_true_l); reflexivity. }
  split; [| split].
  - intros output. rewrite parseVTT_iter_discards, Hd. apply app_nil_r.
  - rewrite !parseVTT_lines, !split_nl_app, (split_nl_line line Hline).
    rewrite !map_app, !filter_app. simpl. now rewrite Hd.
  - vm_compute. reflexivity.
Qed.

Lemma parseVTT_line_shape_only_witness :
  (forall output, parseVTT_iter output (js " 42 ") = output)
  /\ parseVTT (js "Hello." ++ LF ++ js " 42 " ++ LF ++ js "Bye.")
     = parseVTT (js "Hello." ++ LF ++ js "Bye.")
  /\ parseVTT numeric_speech_cues = [].
Proof.
  apply (parseVTT_line_shape_only (js " 42 ") (js "Hello.") (js "Bye.")).
  - vm_compute. reflexivity.
  - left. vm_compute. reflexivity.
Defined.

(** ** Sentence splitting and submission *)

Section Sentences.

Lemma whitespace_not_sentence_end (c : N) :
  is_whitespace c = true -> is_sentence_end c = false.
Proof.
  intros Hw. unfold is_sentence_end.
  destruct (N.eqb_spec c 46) as [-> | _]; [discriminate Hw |].
  destruct (N.eqb_spec c 33) as [-> | _]; [discriminate Hw |].
  destruct (N.eqb_spec c 63) as [-> | _]; [discriminate Hw |].
  reflexivity.
Qed.

Lemma span_ws_spec (s : jsstring) (last : N) :
  is_whitespace last = true ->
  exists run,
    s = run ++ snd (span_ws last s)
    /\ Forall (fun c => is_whitespace c = true) run
    /\ starts_without_whitespace (snd (span_ws last s))
    /\ is_whitespace (fst (span_ws last s)) = true
    /\ (length (snd (span_ws last s)) <= length s)%nat.
Proof.
  revert last; induction s as [| c r IH]; intros last Hlast; simpl.
  - exists []. repeat split; auto.
  - destruct (is_whitespace c) eqn:Hc.
    + destruct (IH c Hc) as (run & Heq & Hrun & Hst & Hfst & Hlen).
      exists (c :: run). simpl.
      split; [now f_equal |].
      split; [now constructor |].
      split; [exact Hst |].
      split; [exact Hfst | lia].
    + exists []. simpl.
      split; [reflexivity |].
      split; [constructor |].
      split; [exact Hc |].
      split; [exact Hlast | lia].
Qed.

Lemma no_boundary_nil : no_boundary [].
Proof. intros a t w b H. destruct a; discriminate H. Qed.

Lemma no_boundary_snoc (unit : jsstring) (prev : option N) (c : N) :
  no_boundary unit -> prev_of unit prev ->
  (forall t, prev = Some t -> is_sentence_end t && is_whitespace c = false) ->
  no_boundary (unit ++ [c]).
Proof.
  intros Hnb [Hprev _] Hno a t w b Heq Ht.
  destruct b as [| y b'] using rev_ind.
  - change (a ++ [t; w]) with (a ++ [t] ++ [w]) in Heq.
    rewrite app_assoc in Heq. apply app_inj_tail in Heq as [Hu ->].
    specialize (Hno t (Hprev _ _ Hu)). rewrite Ht in Hno. exact Hno.
  - clear IHb'.
    change (a ++ t :: w :: b' ++ [y]) with (a ++ (t :: w :: b') ++ [y]) in Heq.
    rewrite app_assoc in Heq. apply app_inj_tail in Heq as [Hu _].
    exact (Hnb _ _ _ _ Hu Ht).
Qed.

Lemma prev_of_snoc (unit : jsstring) (c : N) : prev_of (unit ++ [c]) (Some c).
Proof.
  split.
  - intros u x H. apply app_inj_tail in H as [_ ->]. reflexivity.
  - intros H. destruct unit; discriminate H.
Qed.

Lemma split_loop_splits (fuel : nat) :
  forall prev unit rest,
    (length rest < fuel)%nat -> no_boundary unit -> prev_of unit prev ->
    SentenceSplit (unit ++ rest) (split_loop fuel prev unit rest).
Proof.
  induction fuel as [| fuel IH]; intros prev unit rest Hfuel Hnb Hprev; [lia |].
  destruct rest as [| c rest']; simpl.
  - rewrite app_nil_r. now constructor.
  - destruct prev as [t |]; simpl.
    + destruct (is_sentence_end t) eqn:Ht; simpl.
      * destruct (is_whitespace c) eqn:Hc.
        -- destruct (span_ws_spec rest' c Hc) as (run & Heq & Hrun & Hst & Hfst & Hlen).
           destruct (span_ws c rest') as [last after] eqn:Hspan; simpl in *.
           destruct unit as [| x u'] using rev_ind.
           { destruct Hprev as [_ Hnil]. rewrite (Hnil eq_refl t eq_refl) in Ht.
             discriminate Ht. }
           clear IHu'.
           assert (x = t) as ->.
           { destruct Hprev as [Hp _]. specialize (Hp _ _ eq_refl). congruence. }
           rewrite Heq.
           change (c :: run ++ after) with ((c :: run) ++ after).
           apply SS_cut; auto.
           ++ discriminate.
           ++ specialize (IH (Some last) [] after). simpl in IH. apply IH.
              ** simpl in Hfuel. lia.
              ** apply no_boundary_nil.
              ** split.
                 --- intros u x H. destruct u; discriminate H.
                 --- intros _ t' Heq'. injection Heq' as <-.
                     now apply whitespace_not_sentence_end.
        -- replace (unit ++ c :: rest') with ((unit ++ [c]) ++ rest')
             by now rewrite <- app_assoc.
           apply IH.
           ++ simpl in Hfuel. lia.
           ++ apply (no_boundary_snoc unit (Some t)); auto.
              intros t' Heq'. injection Heq' as <-. now rewrite Hc, andb_false_r.
           ++ apply prev_of_snoc.
      * replace (unit ++ c :: rest') with ((unit ++ [c]) ++ rest')
          by now rewrite <- app_assoc.
        apply IH.
        -- simpl in Hfuel. lia.
        -- apply (no_boundary_snoc unit (Some t)); auto.
           intros t' Heq'. injection Heq' as <-. now rewrite Ht.
        -- apply prev_of_snoc.
    + replace (unit ++ c :: rest') with ((unit ++ [c]) ++ rest')
        by now rewrite <- app_assoc.
      apply IH.
      * simpl in Hfuel. lia.
      * apply (no_boundary_snoc unit None); auto. intros t' Heq'. discriminate Heq'.
      * apply prev_of_snoc.
Qed.

Lemma forEach_sentence_spec (sentences : list jsstring) :
  forall index timers,
    forEach_sentence index sentences timers =
    timers ++ List.map (fun p => mkTimer (100 * fst p) (trim (snd p)))
                (filter (fun p => truthy (trim (snd p))) (indexed index sentences)).
Proof.
  induction sentences as [| s r IH]; intros index timers; simpl.
  - now rewrite app_nil_r.
  - rewrite IH. destruct (truthy (trim s)); simpl.
    + rewrite <- app_assoc. simpl. now rewrite (N.mul_comm index 100).
    + reflexivity.
Qed.

End Sentences.

(** C8 (sentence splitting and throttled submission).  The parsed prose is
    cut at every [.], [!] or [?] that is followed by whitespace, the
    whitespace run being the separator; every unit that is not empty after
    trimming is submitted trimmed, by a timer of 100 ms times its index in
    the list of units, and no submitted text is empty. *)
Theorem queue_sentences_spec (cleanText : jsstring) :
  SentenceSplit cleanText (split_sentences cleanText)
  /\ queue_sentences cleanText = submissions_spec (split_sentences cleanText)
  /\ Forall (fun t => truthy (timer_text t) = true) (queue_sentences cleanText).
Proof.
  assert (Hq : queue_sentences cleanText = submissions_spec (split_sentences cleanText)).
  { unfold queue_sentences. now rewrite forEach_sentence_spec. }
  split; [| split]; auto.
  - unfold split_sentences.
    apply (split_loop_splits (S (length cleanText)) None [] cleanText).
    + lia.
    + apply no_boundary_nil.
    + split.
      * intros u x H. destruct u; discriminate H.
      * intros _ t H. discriminate H.
  - rewrite Hq. unfold submissions_spec.
    apply Forall_forall. intros t Hin.
    apply in_map_iff in Hin as (p & <- & Hp).
    apply filter_In in Hp as [_ Hp]. exact Hp.
Qed.

(** ** The translation queue: invariants *)

Section Invariants.

Lemma processQueue_run_nil (key : jsstring) (st : State) :
  translationQueue st = [] ->
  processQueue_run key st = set_processing false (setStatus STATUS_IDLE (set_queue [] st)).
Proof. intros H. unfold processQueue_run. rewrite H. reflexivity. Qed.

Lemma processQueue_run_cons (key : jsstring) (st : State) (chunk : jsstring)
  (queue : list jsstring) :
  translationQueue st = chunk :: queue -> truthy chunk = true ->
  processQueue_run key st =
  let st1 := setStatus STATUS_TRANSLATING (set_queue queue st) in
  let st2 := fst (translateWithGemini key chunk st1) in
  set_tasks (tasks st2 ++ [mkTask key (AwaitTranslate chunk
                                         (snd (translateWithGemini key chunk st1)))])
    st2.
Proof.
  intros H Hc. unfold processQueue_run. rewrite H. simpl. rewrite Hc.
  destruct (translateWithGemini key chunk _). reflexivity.
Qed.

Lemma processQueue_run_inv (key : jsstring) (st : State) :
  running st ->
  single_flight (processQueue_run key st)
  /\ pending (processQueue_run key st) = translationQueue st
  /\ translations (processQueue_run key st) = translations st
  /\ audioStreamerRef (processQueue_run key st) = audioStreamerRef st.
Proof.
  intros (Hp & Ht & Hq).
  destruct (translationQueue st) as [| chunk queue] eqn:Hqueue.
  - rewrite (processQueue_run_nil key st Hqueue).
    unfold single_flight, pending, in_translation. simpl. rewrite Ht.
    repeat split; auto; intros; congruence.
  - inversion Hq as [| ? ? Hc Hrest]; subst.
    rewrite (processQueue_run_cons key st chunk queue Hqueue Hc).
    unfold single_flight, pending, in_translation, translateWithGemini.
    destruct (truthy key); simpl; rewrite Ht; simpl;
      (split; [split; [intros; congruence | split; [eauto | assumption]] | auto]).
Qed.

Lemma after_translate_inv (key chunk : jsstring)
  (c : Completion (option jsstring)) (st : State) :
  running st ->
  single_flight (after_translate key chunk c st)
  /\ pending (after_translate key chunk c st) = translationQueue st
  /\ (exists r, translations (after_translate key chunk c st)
                = translations st ++ produced [(chunk, r)])
  /\ audioStreamerRef (after_translate key chunk c st) = audioStreamerRef st.
Proof.
  intros Hrun.
  assert (Hnull : forall st', running st' -> translations st' = translations st ->
            translationQueue st' = translationQueue st ->
            audioStreamerRef st' = audioStreamerRef st ->
            single_flight (processQueue_run key st')
            /\ pending (processQueue_run key st') = translationQueue st
            /\ (exists r, translations (processQueue_run key st')
                          = translations st ++ produced [(chunk, r)])
            /\ audioStreamerRef (processQueue_run key st') = audioStreamerRef st).
  { intros st' Hrun' Htr Hq Ha.
    destruct (processQueue_run_inv key st' Hrun') as (H1 & H2 & H3 & H4).
    split; [exact H1 |]. split; [congruence |]. split; [| congruence].
    exists None. simpl. rewrite app_nil_r. congruence. }
  destruct c as [[translated |] | message]; simpl.
  - destruct (truthy translated) eqn:Htruthy.
    + destruct Hrun as (Hp & Ht & Hq).
      unfold speakWithGemini, single_flight, pending, in_translation.
      destruct (truthy key); simpl; rewrite Ht; simpl;
        (split; [split; [intros H; rewrite Hp in H; discriminate H
                        | split; [eauto | assumption]] |]);
        (split; [reflexivity |]); (split; [| reflexivity]);
        exists (Some translated); reflexivity.
    + now apply Hnull.
  - now apply Hnull.
  - apply Hnull; auto.
Qed.

Lemma after_speak_inv (key : jsstring) (c : Completion (option (list Part)))
  (st : State) :
  running st ->
  single_flight (after_speak key c st)
  /\ pending (after_speak key c st) = translationQueue st
  /\ translations (after_speak key c st) = translations st.
Proof.
  intros Hrun. destruct c as [parts | message]; simpl.
  - assert (Hrun' : running (speak_response parts st)).
    { destruct Hrun as (Hp & Ht & Hq). destruct parts; now repeat split. }
    destruct (processQueue_run_inv key _ Hrun') as (H1 & H2 & H3 & _).
    split; [exact H1 |]. destruct parts; simpl in *; auto.
  - destruct (processQueue_run_inv key _ Hrun) as (H1 & H2 & H3 & _). auto.
Qed.

Lemma resume_cases (i : nat) (k : Task -> option (State -> State)) (st : State) :
  single_flight st ->
  resume i k st = st
  \/ exists t f, tasks st = [t] /\ k t = Some f
                 /\ running (set_tasks [] st)
                 /\ resume i k st = f (set_tasks [] st).
Proof.
  intros (Hidle & Hbusy & Hq). unfold resume.
  destruct (processingQueue st) eqn:Hp.
  - destruct (Hbusy eq_refl) as [t Ht]. rewrite Ht.
    destruct i as [| i]; simpl.
    + destruct (k t) as [f |] eqn:Hk; [| now left].
      right. exists t, f. repeat split; auto.
    + destruct i; now left.
  - destruct (Hidle eq_refl) as [Ht _]. rewrite Ht.
    destruct i; now left.
Qed.

Lemma enqueueTranslation_inv (key text : jsstring) (st : State) :
  single_flight st ->
  single_flight (enqueueTranslation key text st)
  /\ pending (enqueueTranslation key text st)
     = pending st ++ enqueued_by (EvEnqueue key text)
  /\ translations (enqueueTranslation key text st) = translations st.
Proof.
  intros (Hidle & Hbusy & Hq). unfold enqueueTranslation. simpl.
  destruct (truthy text) eqn:Htext; simpl.
  2: { rewrite app_nil_r. split; [exact (conj Hidle (conj Hbusy Hq)) | auto]. }
  destruct (processingQueue st) eqn:Hp; simpl.
  - split; [| split; [| reflexivity]].
    + split; [simpl; intros H; congruence |].
      split; [intros _; exact (Hbusy eq_refl) |]. simpl. apply Forall_app. split; auto.
    + unfold pending, in_translation. simpl. now rewrite app_assoc.
  - destruct (Hidle eq_refl) as [Ht Hqueue].
    unfold processQueue. simpl. rewrite Hp.
    match goal with |- context [processQueue_run key ?s] =>
      destruct (processQueue_run_inv key s) as (H1 & H2 & H3 & _) end.
    { repeat split; simpl; auto. rewrite Hqueue. simpl. auto. }
    split; [exact H1 |]. split; [| exact H3].
    rewrite H2. simpl. unfold pending, in_translation. rewrite Ht, Hqueue. reflexivity.
Qed.

(** One step keeps the single-flight shape and the account of the segments. *)
Lemma step_inv (st : State) (ev : Event) (enq : list jsstring)
  (done : list (jsstring * option jsstring)) :
  single_flight st -> accounted enq done st ->
  single_flight (step st ev)
  /\ exists done', accounted (enq ++ enqueued_by ev) done' (step st ev).
Proof.
  intros Hsf [Henq Htr].
  assert (Hsame : forall st', single_flight st' -> pending st' = pending st ->
            translations st' = translations st -> enqueued_by ev = [] ->
            single_flight st'
            /\ exists done', accounted (enq ++ enqueued_by ev) done' st').
  { intros st' H1 H2 H3 H4. split; [exact H1 |]. exists done.
    rewrite H4, app_nil_r. split; congruence. }
  assert (Hres : forall i k, enqueued_by ev = [] ->
            (forall t f, tasks st = [t] -> k t = Some f -> running (set_tasks [] st) ->
               single_flight (f (set_tasks [] st))
               /\ exists r, pending (f (set_tasks [] st)) = translationQueue st
                  /\ translations (f (set_tasks [] st))
                     = translations st
                       ++ produced (List.map (fun c => (c, r)) (translating t))) ->
            single_flight (resume i k st)
            /\ exists done', accounted (enq ++ enqueued_by ev) done' (resume i k st)).
  { intros i k Hev Hk.
    destruct (resume_cases i k st Hsf) as [-> | (t & f & Ht & Hkt & Hrun & ->)].
    - now apply Hsame.
    - destruct (Hk t f Ht Hkt Hrun) as (H1 & r & H2 & H3).
      split; [exact H1 |].
      exists (done ++ List.map (fun c => (c, r)) (translating t)).
      rewrite Hev, app_nil_r. unfold accounted.
      rewrite H2, H3, Htr, Henq. unfold produced at 3. rewrite flat_map_app.
      split; [| reflexivity].
      unfold pending, in_translation. rewrite Ht. simpl. rewrite app_nil_r.
      rewrite map_app, map_map. simpl. rewrite map_id, <- app_assoc. reflexivity. }
  destruct ev as [| key text | i | i text | i message | i parts | i message]; simpl step.
  - apply Hsame; auto.
    + destruct Hsf as (H1 & H2 & H3). unfold initAudioStreamer.
      destruct (audioStreamerRef st); exact (conj H1 (conj H2 H3)).
    + unfold initAudioStreamer. now destruct (audioStreamerRef st).
    + unfold initAudioStreamer. now destruct (audioStreamerRef st).
  - destruct (enqueueTranslation_inv key text st Hsf) as (H1 & H2 & H3).
    split; [exact H1 |]. exists done. split.
    + rewrite H2, Henq. now rewrite app_assoc.
    + congruence.
  - apply Hres; [reflexivity |]. intros t f Ht Hk Hrun.
    unfold translating. destruct (awaiting t) as [chunk [v |] | chunk tr [u |]];
      try discriminate Hk; injection Hk as <-.
    + destruct (after_translate_inv (apiKey t) chunk (Fulfilled v) _ Hrun)
        as (H1 & H2 & (r & H3) & _).
      split; [exact H1 |]. exists r. split; [exact H2 | exact H3].
    + destruct (processQueue_run_inv (apiKey t) _ Hrun) as (H1 & H2 & H3 & _).
      split; [exact H1 |]. exists None. split; [exact H2 |].
      simpl. rewrite app_nil_r. exact H3.
  - apply Hres; [reflexivity |]. intros t f Ht Hk Hrun.
    unfold translating. destruct (awaiting t) as [chunk [v |] | chunk tr [u |]];
      try discriminate Hk; injection Hk as <-.
    destruct (after_translate_inv (apiKey t) chunk
                (Fulfilled (translation_of_response text)) _ Hrun)
      as (H1 & H2 & (r & H3) & _).
    split; [exact H1 |]. exists r. split; [exact H2 | exact H3].
  - apply Hres; [reflexivity |]. intros t f Ht Hk Hrun.
    unfold translating. destruct (awaiting t) as [chunk [v |] | chunk tr [u |]];
      try discriminate Hk; injection Hk as <-.
    destruct (after_translate_inv (apiKey t) chunk (Rejected message) _ Hrun)
      as (H1 & H2 & (r & H3) & _).
    split; [exact H1 |]. exists r. split; [exact H2 | exact H3].
  - apply Hres; [reflexivity |]. intros t f Ht Hk Hrun.
    unfold translating. destruct (awaiting t) as [chunk [v |] | chunk tr [u |]];
      try discriminate Hk; injection Hk as <-.
    destruct (after_speak_inv (apiKey t) (Fulfilled parts) _ Hrun) as (H1 & H2 & H3).
    split; [exact H1 |]. exists None. split; [exact H2 |].
    simpl. rewrite app_nil_r. exact H3.
  - apply Hres; [reflexivity |]. intros t f Ht Hk Hrun.
    unfold translating. destruct (awaiting t) as [chunk [v |] | chunk tr [u |]];
      try discriminate Hk; injection Hk as <-.
    destruct (after_speak_inv (apiKey t) (Rejected message) _ Hrun) as (H1 & H2 & H3).
    split; [exact H1 |]. exists None. split; [exact H2 |].
    simpl. rewrite app_nil_r. exact H3.
Qed.

Lemma exec_snoc (trace : list Event) (ev : Event) :
  exec (trace ++ [ev]) = step (exec trace) ev.
Proof. unfold exec, exec_from. now rewrite fold_left_app. Qed.

Lemma exec_inv (trace : list Event) :
  single_flight (exec trace)
  /\ exists done, accounted (enqueued trace) done (exec trace).
Proof.
  induction trace as [| ev trace IH] using rev_ind.
  - split.
    + unfold single_flight. simpl. repeat split; auto. discriminate.
    + exists []. split; reflexivity.
  - destruct IH as (Hsf & done & Hacc).
    rewrite exec_snoc. unfold enqueued. rewrite flat_map_app. simpl.
    rewrite app_nil_r. now apply step_inv with (done := done).
Qed.

End Invariants.

(** ** The translation queue: what one run of the loop head does *)

Section Effects.

Lemma processQueue_loop_effects (key : jsstring) (queue : list jsstring) :
  forall st,
    translations (fst (processQueue_loop key queue st)) = translations st
    /\ audioStreamerRef (fst (processQueue_loop key queue st)) = audioStreamerRef st
    /\ tasks (fst (processQueue_loop key queue st)) = tasks st
    /\ processingQueue (fst (processQueue_loop key queue st)) = processingQueue st
    /\ (exists reqs,
          network (fst (processQueue_loop key queue st)) = network st ++ reqs
          /\ Forall is_translate_request reqs)
    /\ (exists sts,
          statusLog (fst (processQueue_loop key queue st)) = statusLog st ++ sts
          /\ Forall quiet_status sts).
Proof.
  induction queue as [| chunk queue IH]; intros st; simpl.
  - repeat split; auto; exists []; rewrite app_nil_r; auto.
  - destruct (truthy chunk); [| apply IH].
    unfold translateWithGemini. destruct (truthy key); simpl.
    + repeat split; auto.
      * exists [TranslateRequest chunk]. split; [reflexivity |].
        constructor; [exact I | constructor].
      * exists [STATUS_TRANSLATING]. split; [reflexivity |].
        constructor; [now left | constructor].
    + repeat split; auto.
      * exists []. rewrite app_nil_r. auto.
      * exists [STATUS_TRANSLATING; STATUS_MISSING_KEY].
        rewrite <- app_assoc. split; [reflexivity |].
        constructor; [now left | constructor; [right; now left | constructor]].
Qed.

Lemma processQueue_run_effects (key : jsstring) (st : State) :
  translations (processQueue_run key st) = translations st
  /\ audioStreamerRef (processQueue_run key st) = audioStreamerRef st
  /\ (exists reqs,
        network (processQueue_run key st) = network st ++ reqs
        /\ Forall is_translate_request reqs)
  /\ (exists sts,
        statusLog (processQueue_run key st) = statusLog st ++ sts
        /\ Forall quiet_status sts).
Proof.
  destruct (processQueue_loop_effects key (translationQueue st) st)
    as (H1 & H2 & H3 & H4 & (reqs & H5 & H6) & (sts & H7 & H8)).
  unfold processQueue_run.
  destruct (processQueue_loop key (translationQueue st) st) as [st' [a |]];
    simpl in *.
  - repeat split; auto; [exists reqs | exists sts]; auto.
  - repeat split; auto; [exists reqs; auto |].
    exists (sts ++ [STATUS_IDLE]). rewrite H7, <- app_assoc. split; [reflexivity |].
    apply Forall_app. split; [exact H8 |].
    constructor; [right; now right | constructor].
Qed.


End Effects.

(** ** The translation queue along a schedule *)

Section Schedules.

Variable key : jsstring.
Hypothesis key_present : truthy key = true.

Lemma translation_of_response_truthy (text : option jsstring) (t : jsstring) :
  translation_of_response text = Some t -> truthy t = true.
Proof.
  destruct text as [raw |]; simpl; [| discriminate].
  destruct (truthy (trim raw)) eqn:H; [| discriminate].
  intros E. injection E as <-. exact H.
Qed.

(** The loop head with nothing suspended takes the oldest waiting segment
    into translation, or leaves the loop when none waits. *)
Lemma run_at_position (st : State) (waiting : list Job) :
  Forall (fun j => truthy (job_text j) = true) waiting ->
  processingQueue st = true -> tasks st = [] ->
  translationQueue st = List.map job_text waiting ->
  at_position key (processQueue_run key st) waiting None
  /\ translations (processQueue_run key st) = translations st
  /\ exists sts, statusLog (processQueue_run key st) = statusLog st ++ sts.
Proof.
  intros Hok Hp Ht Hq. destruct waiting as [| j waiting].
  - rewrite (processQueue_run_nil key st Hq). simpl.
    split; [now rewrite Ht |]. split; [reflexivity | eauto].
  - inversion Hok as [| ? ? Hj _]; subst.
    rewrite (processQueue_run_cons key st (job_text j)
               (List.map job_text waiting) Hq Hj).
    unfold translateWithGemini. rewrite key_present. simpl. rewrite Ht, Hp.
    split; [now repeat split |]. split; [reflexivity | eauto].
Qed.

Lemma enqueue_at_position (st : State) (waiting : list Job)
  (speaking : option Job) (j : Job) :
  truthy (job_text j) = true ->
  at_position key st waiting speaking ->
  at_position key (step st (EvEnqueue key (job_text j))) (waiting ++ [j]) speaking
  /\ translations (step st (EvEnqueue key (job_text j))) = translations st
  /\ exists sts,
       statusLog (step st (EvEnqueue key (job_text j))) = statusLog st ++ sts.
Proof.
  intros Hj Hpos. cbn [step]. unfold enqueueTranslation. rewrite Hj.
  cbn [negb].
  destruct speaking as [j0 |]; [| destruct waiting as [| j1 waiting]].
  - destruct Hpos as (translated & Hres & Hp & Ht & Hq).
    simpl. rewrite Hp. simpl.
    split; [| split; [reflexivity | exists []; now rewrite app_nil_r]].
    exists translated. rewrite Hq, map_app. now repeat split.
  - destruct Hpos as (Hp & Ht & Hq).
    assert (Hrun : (if negb (processingQueue
                               (set_queue (translationQueue st ++ [job_text j]) st))
                    then processQueue key
                           (set_queue (translationQueue st ++ [job_text j]) st)
                    else set_queue (translationQueue st ++ [job_text j]) st)
                   = processQueue_run key
                       (set_processing true
                          (set_queue (translationQueue st ++ [job_text j]) st))).
    { unfold processQueue. simpl. now rewrite Hp. }
    rewrite Hrun.
    destruct (run_at_position
                (set_processing true
                   (set_queue (translationQueue st ++ [job_text j]) st)) [j])
      as (Hpos & Htrs & sts & Hsts).
    + now constructor.
    + reflexivity.
    + exact Ht.
    + simpl. now rewrite Hq.
    + split; [exact Hpos |]. split; [exact Htrs |]. exists sts. exact Hsts.
  - destruct Hpos as (Hp & Ht & Hq).
    simpl. rewrite Hp. simpl.
    split; [| split; [reflexivity | exists []; now rewrite app_nil_r]].
    rewrite Hq, map_app. now repeat split.
Qed.

Lemma translate_at_position (st : State) (waiting : list Job) (j : Job) :
  Forall (fun j => truthy (job_text j) = true) waiting ->
  at_position key st (j :: waiting) None ->
  at_position key (step st (translate_event j)) waiting
    (match job_result j with Some _ => Some j | None => None end)
  /\ translations (step st (translate_event j))
     = translations st ++ job_items [j]
  /\ exists sts,
       statusLog (step st (translate_event j))
       = statusLog st ++ job_errors [j] ++ sts.
Proof.
  intros Hok (Hp & Ht & Hq).
  unfold job_items, job_errors, translate_event, job_result.
  cbn [flat_map]. rewrite !app_nil_r.
  destruct (job_translation j) as [text | message] eqn:Hjt; cbn [step];
    unfold resume; rewrite Ht; cbn [nth_error awaiting apiKey remove_nth].
  - destruct (translation_of_response text) as [translated |] eqn:Hres.
    + pose proof (translation_of_response_truthy text translated Hres) as Htr.
      cbn [after_translate]. rewrite Htr. unfold speakWithGemini.
      rewrite key_present. simpl.
      split; [| split; [reflexivity | eauto]].
      exists translated. unfold job_result. rewrite Hjt.
      now repeat split.
    + cbn [after_translate].
      destruct (run_at_position (set_tasks [] st) waiting Hok Hp eq_refl Hq)
        as (Hpos & Htrs & sts & Hsts).
      split; [exact Hpos |]. split; [now rewrite Htrs, app_nil_r |].
      exists sts. exact Hsts.
  - cbn [after_translate].
    destruct (run_at_position (setStatus (STATUS_ERROR message) (set_tasks [] st))
                waiting Hok Hp eq_refl Hq) as (Hpos & Htrs & sts & Hsts).
    split; [exact Hpos |]. split; [now rewrite Htrs, app_nil_r |].
    exists sts. rewrite Hsts. simpl. now rewrite <- app_assoc.
Qed.

Lemma speech_at_position (st : State) (waiting : list Job) (j : Job) :
  Forall (fun j => truthy (job_text j) = true) waiting ->
  at_position key st waiting (Some j) ->
  at_position key (step st (speech_event j)) waiting None
  /\ translations (step st (speech_event j)) = translations st
  /\ exists sts, statusLog (step st (speech_event j)) = statusLog st ++ sts.
Proof.
  intros Hok (translated & Hres & Hp & Ht & Hq).
  unfold speech_event.
  destruct (job_speech j) as [parts | message]; cbn [step];
    unfold resume; rewrite Ht; cbn [nth_error awaiting apiKey remove_nth after_speak].
  - destruct (run_at_position (speak_response parts (set_tasks [] st)) waiting Hok)
      as (Hpos & Htrs & sts & Hsts).
    + now destruct parts.
    + now destruct parts.
    + now destruct parts.
    + split; [exact Hpos |]. split.
      * rewrite Htrs. now destruct parts.
      * exists sts. rewrite Hsts. now destruct parts.
  - now apply (run_at_position (set_tasks [] st) waiting Hok).
Qed.

Lemma job_items_app (l1 l2 : list Job) :
  job_items (l1 ++ l2) = job_items l1 ++ job_items l2.
Proof. apply flat_map_app. Qed.

Lemma job_errors_app (l1 l2 : list Job) :
  job_errors (l1 ++ l2) = job_errors l1 ++ job_errors l2.
Proof. apply flat_map_app. Qed.

Lemma enqueued_cons (ev : Event) (trace : list Event) :
  enqueued (ev :: trace) = enqueued_by ev ++ enqueued trace.
Proof. reflexivity. Qed.

(** A complete schedule from a position of the queue: every job that has a
    translation produces its item, in the order of arrival, behind the
    items that exist; the queue ends idle and empty; and every failure of a
    translation call has set its status. *)
Lemma schedule_run (moves : list Move) :
  forall arriving waiting speaking trace st,
    Forall (fun j => truthy (job_text j) = true) (waiting ++ arriving) ->
    schedule key moves arriving waiting speaking = Some trace ->
    at_position key st waiting speaking ->
    translations (exec_from st trace)
    = translations st ++ job_items (waiting ++ arriving)
    /\ at_position key (exec_from st trace) [] None
    /\ (exists sts,
          statusLog (exec_from st trace) = statusLog st ++ sts
          /\ incl (job_errors (waiting ++ arriving)) sts)
    /\ enqueued trace = List.map job_text arriving.
Proof.
  induction moves as [| move moves IH];
    intros arriving waiting speaking trace st Hok Hsched Hpos.
  - cbn [schedule] in Hsched.
    destruct arriving; [| discriminate Hsched].
    destruct waiting; [| discriminate Hsched].
    destruct speaking; [discriminate Hsched |].
    injection Hsched as <-. simpl. rewrite app_nil_r.
    split; [reflexivity |]. split; [exact Hpos |].
    split; [| reflexivity]. exists []. rewrite app_nil_r.
    split; [reflexivity | apply incl_nil_l].
  - destruct move; cbn [schedule] in Hsched.
    + destruct arriving as [| j arriving]; [discriminate Hsched |].
      destruct (schedule key moves arriving (waiting ++ [j]) speaking)
        as [trace' |] eqn:Hrest; [| discriminate Hsched].
      injection Hsched as <-.
      assert (Hj : truthy (job_text j) = true).
      { apply Forall_app in Hok as [_ Hok]. now inversion Hok. }
      destruct (enqueue_at_position st waiting speaking j Hj Hpos)
        as (Hpos' & Htrs & sts & Hsts).
      assert (Hok' : Forall (fun j => truthy (job_text j) = true)
                       ((waiting ++ [j]) ++ arriving)).
      { now rewrite <- app_assoc. }
      destruct (IH arriving (waiting ++ [j]) speaking trace' _ Hok' Hrest Hpos')
        as (H1 & H2 & (sts' & H3 & H4) & H5).
      change (exec_from st (EvEnqueue key (job_text j) :: trace'))
        with (exec_from (step st (EvEnqueue key (job_text j))) trace').
      rewrite <- app_assoc in H1, H4. cbn [app] in H1, H4.
      split; [now rewrite H1, Htrs |]. split; [exact H2 |]. split.
      * exists (sts ++ sts'). rewrite H3, Hsts, <- app_assoc.
        split; [reflexivity | now apply incl_appr].
      * rewrite enqueued_cons, H5. cbn [enqueued_by]. now rewrite Hj.
    + destruct speaking as [j |]; [| destruct waiting as [| j waiting]].
      * destruct (schedule key moves arriving waiting None)
          as [trace' |] eqn:Hrest; [| discriminate Hsched].
        injection Hsched as <-.
        assert (Hw : Forall (fun j => truthy (job_text j) = true) waiting).
        { now apply Forall_app in Hok as [Hok _]. }
        destruct (speech_at_position st waiting j Hw Hpos)
          as (Hpos' & Htrs & sts & Hsts).
        destruct (IH arriving waiting None trace' _ Hok Hrest Hpos')
          as (H1 & H2 & (sts' & H3 & H4) & H5).
        change (exec_from st (speech_event j :: trace'))
          with (exec_from (step st (speech_event j)) trace').
        split; [now rewrite H1, Htrs |]. split; [exact H2 |]. split.
        -- exists (sts ++ sts'). rewrite H3, Hsts, <- app_assoc.
           split; [reflexivity | now apply incl_appr].
        -- rewrite enqueued_cons, H5. unfold speech_event.
           now destruct (job_speech j).
      * discriminate Hsched.
      * destruct (schedule key moves arriving waiting
                    (match job_result j with Some _ => Some j | None => None end))
          as [trace' |] eqn:Hrest; [| discriminate Hsched].
        injection Hsched as <-.
        cbn [app] in Hok. inversion Hok as [| ? ? Hj Hok']; subst.
        assert (Hw : Forall (fun j => truthy (job_text j) = true) waiting).
        { now apply Forall_app in Hok' as [Hok' _]. }
        destruct (translate_at_position st waiting j Hw Hpos)
          as (Hpos' & Htrs & sts & Hsts).
        destruct (IH arriving waiting _ trace' _ Hok' Hrest Hpos')
          as (H1 & H2 & (sts' & H3 & H4) & H5).
        change (exec_from st (translate_event j :: trace'))
          with (exec_from (step st (translate_event j)) trace').
        change (job_items ((j :: waiting) ++ arriving))
          with (job_items ([j] ++ (waiting ++ arriving))).
        change (job_errors ((j :: waiting) ++ arriving))
          with (job_errors ([j] ++ (waiting ++ arriving))).
        rewrite job_items_app, job_errors_app.
        split; [now rewrite H1, Htrs, <- app_assoc |].
        split; [exact H2 |]. split.
        -- exists (job_errors [j] ++ sts ++ sts').
           rewrite H3, Hsts, <- !app_assoc.
           split; [reflexivity |].
           apply incl_app; [now apply incl_appl |].
           apply incl_appr. now apply incl_appr.
        -- rewrite enqueued_cons, H5. unfold translate_event.
           now destruct (job_translation j).
Qed.

Lemma processQueue_loop_await (k : jsstring) (queue : list jsstring) :
  forall st st' a,
    processQueue_loop k queue st = (st', Some a) ->
    exists chunk p, a = AwaitTranslate chunk p /\ truthy chunk = true
                    /\ exists skipped, queue = skipped ++ chunk :: translationQueue st'.
Proof.
  induction queue as [| chunk queue IH]; intros st st' a H; simpl in H.
  - discriminate H.
  - destruct (truthy chunk) eqn:Hc.
    + destruct (translateWithGemini k chunk _) as [st2 p] eqn:Ht.
      injection H as <- <-. exists chunk, p. split; [reflexivity |].
      split; [exact Hc |]. exists [].
      unfold translateWithGemini in Ht.
      destruct (negb (truthy k)); injection Ht as <- _; reflexivity.
    + destruct (IH st st' a H) as (c & p & Ha & Hc' & skipped & Hq).
      exists c, p. split; [exact Ha |]. split; [exact Hc' |].
      exists (chunk :: skipped). now rewrite Hq.
Qed.

(** The loop head with nothing suspended leaves no invocation at the
    synthesis stage. *)
Lemma run_no_speaking (k : jsstring) (st : State) :
  tasks st = [] -> speaking_has_item (processQueue_run k st).
Proof.
  intros Ht. unfold speaking_has_item, processQueue_run.
  pose proof (processQueue_loop_effects k (translationQueue st) st)
    as (_ & _ & Htasks & _).
  destruct (processQueue_loop k (translationQueue st) st) as [st' [a |]] eqn:Hloop;
    simpl in *; rewrite Htasks, Ht; simpl.
  - destruct (processQueue_loop_await k _ _ _ _ Hloop) as (c & p & -> & _).
    constructor; [exact I | constructor].
  - constructor.
Qed.

Lemma after_translate_has_item (k chunk : jsstring)
  (c : Completion (option jsstring)) (st : State) :
  tasks st = [] -> speaking_has_item (after_translate k chunk c st).
Proof.
  intros Ht.
  destruct c as [[translated |] | message]; cbn [after_translate];
    try (now apply run_no_speaking).
  destruct (truthy translated); [| now apply run_no_speaking].
  unfold speakWithGemini, speaking_has_item.
  destruct (negb (truthy k)); simpl; rewrite Ht; simpl;
    (constructor; [| constructor]); now exists (translations st).
Qed.

Lemma speaking_has_item_step (st : State) (ev : Event) :
  single_flight st -> speaking_has_item st -> speaking_has_item (step st ev).
Proof.
  intros Hsf H.
  assert (Hresume : forall i k,
            (forall t f, k t = Some f ->
               forall st0, tasks st0 = [] -> speaking_has_item (f st0)) ->
            speaking_has_item (resume i k st)).
  { intros i k Hk.
    destruct (resume_cases i k st Hsf) as [-> | (t & f & _ & Hf & _ & ->)];
      [exact H | now apply (Hk t f Hf)]. }
  destruct ev as [| k text | i | i text | i message | i parts | i message];
    cbn [step].
  - unfold initAudioStreamer. now destruct (audioStreamerRef st).
  - unfold enqueueTranslation. destruct (truthy text); [| exact H]. simpl.
    destruct (processingQueue st) eqn:Hp; simpl; [exact H |].
    unfold processQueue. simpl. rewrite Hp.
    apply run_no_speaking. simpl. destruct Hsf as (Hidle & _).
    now destruct (Hidle Hp).
  - apply Hresume. intros t f Hf st0 Ht.
    destruct (awaiting t) as [chunk [v |] | chunk translated [u |]];
      try discriminate Hf; injection Hf as <-.
    + now apply after_translate_has_item.
    + now apply run_no_speaking.
  - apply Hresume. intros t f Hf st0 Ht.
    destruct (awaiting t) as [chunk [v |] | chunk translated [u |]];
      try discriminate Hf; injection Hf as <-.
    now apply after_translate_has_item.
  - apply Hresume. intros t f Hf st0 Ht.
    destruct (awaiting t) as [chunk [v |] | chunk translated [u |]];
      try discriminate Hf; injection Hf as <-.
    now apply after_translate_has_item.
  - apply Hresume. intros t f Hf st0 Ht.
    destruct (awaiting t) as [chunk [v |] | chunk translated [u |]];
      try discriminate Hf; injection Hf as <-.
    cbn [after_speak]. apply run_no_speaking. now destruct parts.
  - apply Hresume. intros t f Hf st0 Ht.
    destruct (awaiting t) as [chunk [v |] | chunk translated [u |]];
      try discriminate Hf; injection Hf as <-.
    cbn [after_speak]. now apply run_no_speaking.
Qed.

Lemma speaking_has_item_exec (trace : list Event) :
  speaking_has_item (exec trace).
Proof.
  induction trace as [| ev trace IH] using rev_ind.
  - constructor.
  - rewrite exec_snoc. apply speaking_has_item_step; [| exact IH].
    apply exec_inv.
Qed.

(** After a stage has failed, the loop head takes the next segment of the
    queue, or leaves the loop when the queue is empty. *)
Lemma run_takes_next (k : jsstring) (st : State) :
  running st ->
  (translationQueue st = [] ->
   processingQueue (processQueue_run k st) = false
   /\ tasks (processQueue_run k st) = [])
  /\ (forall next rest,
        translationQueue st = next :: rest ->
        translationQueue (processQueue_run k st) = rest
        /\ exists p, tasks (processQueue_run k st)
                     = [mkTask k (AwaitTranslate next p)]).
Proof.
  intros (Hp & Ht & Hq). split.
  - intros Hnil. rewrite (processQueue_run_nil k st Hnil). simpl.
    split; [reflexivity | exact Ht].
  - intros next rest Hqueue. rewrite Hqueue in Hq.
    inversion Hq as [| ? ? Hnext _]; subst.
    rewrite (processQueue_run_cons k st next rest Hqueue Hnext).
    unfold translateWithGemini. destruct (negb (truthy k)); simpl; rewrite Ht;
      simpl; (split; [reflexivity | eexists; reflexivity]).
Qed.

Lemma at_position_initial : at_position key initial [] None.
Proof. now repeat split. Qed.


End Schedules.

Lemma job_ok_all (jobs : list Job) :
  forallb job_ok jobs = true ->
  Forall (fun j => truthy (job_text j) = true) jobs.
Proof. intros H. apply Forall_forall. now apply forallb_forall. Qed.





(** C3, as stated, fails: a text of whitespace only is not empty, so it is
    queued and its translation is requested. *)
Lemma enqueue_whitespace_not_noop :
  trim (js " ") = []
  /\ enqueueTranslation (js "key") (js " ") initial <> initial
  /\ pending (enqueueTranslation (js "key") (js " ") initial) = [js " "]
  /\ network (enqueueTranslation (js "key") (js " ") initial)
     = [TranslateRequest (js " ")].
Proof.
  split; [reflexivity |]. split; [| split; reflexivity].
  intros H. apply (f_equal processingQueue) in H. discriminate H.
Qed.

(** C3, amended.  In every state the queue reaches, [enqueueTranslation] is a
    no-op exactly for the empty text.  Every other text, whitespace or not,
    is appended behind the segments that wait; when an invocation of
    [processQueue] is active the call only pushes the text, and otherwise it
    returns with a new invocation suspended in the translation stage of the
    text, not with its result. *)
Theorem enqueueTranslation_spec (trace : list Event) (key text : jsstring) :
  (text = [] -> enqueueTranslation key text (exec trace) = exec trace)
  /\ (text <> [] ->
      pending (enqueueTranslation key text (exec trace))
      = pending (exec trace) ++ [text]
      /\ translations (enqueueTranslation key text (exec trace))
         = translations (exec trace)
      /\ (processingQueue (exec trace) = true ->
          enqueueTranslation key text (exec trace)
          = set_queue (translationQueue (exec trace) ++ [text]) (exec trace))
      /\ (processingQueue (exec trace) = false ->
          exists p, tasks (enqueueTranslation key text (exec trace))
                    = [mkTask key (AwaitTranslate text p)])).
Proof.
  destruct (exec_inv trace) as (Hsf & _).
  split.
  - intros ->. reflexivity.
  - intros Hne.
    assert (Htext : truthy text = true) by (destruct text; [congruence | reflexivity]).
    destruct (enqueueTranslation_inv key text (exec trace) Hsf) as (_ & H2 & H3).
    simpl in H2. rewrite Htext in H2.
    split; [exact H2 |]. split; [exact H3 |]. split.
    + intros Hp. unfold enqueueTranslation. rewrite Htext. simpl. now rewrite Hp.
    + intros Hp. destruct Hsf as (Hidle & _ & _).
      destruct (Hidle Hp) as [Ht Hq].
      unfold enqueueTranslation, processQueue. rewrite Htext. simpl. rewrite Hp.
      rewrite (processQueue_run_cons key _ text []); simpl; auto.
      * rewrite Hq. simpl. unfold translateWithGemini.
        destruct (truthy key); simpl; rewrite Ht; simpl; eexists; reflexivity.
      * now rewrite Hq.
Qed.

(** ** The path without a credential *)

Section MissingKey.






End MissingKey.


(** ** The parts of a synthesis response *)

Section Synthesis.

Lemma feed_parts_until (before rest : list Part) :
  forall streamer,
    forallb (fun part => negb (throws part)) before = true ->
    stops_at rest ->
    feed_parts (before ++ rest) streamer
    = (option_map (fun a => a ++ audio_payloads before) streamer,
       negb (is_nil rest)).
Proof.
  induction before as [| part before IH]; intros streamer Hbefore Hrest.
  - assert (Hsame : option_map (fun a => a ++ audio_payloads []) streamer
                     = streamer).
    { destruct streamer; simpl; [now rewrite app_nil_r | reflexivity]. }
    rewrite Hsame. cbn [app].
    destruct rest as [| [[[[type |] payload] |]] rest]; simpl in *;
      try reflexivity; try discriminate Hrest.
    unfold throws, is_audio_part, part_payload in Hrest. simpl in Hrest.
    destruct (startsWith type AUDIO); [| discriminate Hrest].
    destruct (base64ToArrayBuffer payload); [discriminate Hrest | reflexivity].
  - cbn [forallb] in Hbefore. apply andb_true_iff in Hbefore as [Hpart Hbefore].
    destruct part as [[[[type |] payload] |]];
      unfold throws, is_audio_part, part_payload in Hpart; simpl in Hpart;
      try discriminate Hpart.
    + change (audio_payloads (?x :: before))
        with ((if is_audio_part x
               then match part_payload x with Some buffer => [buffer] | None => [] end
               else []) ++ audio_payloads before).
      unfold is_audio_part, part_payload. simpl.
      destruct (startsWith type AUDIO); simpl in *; [| now apply IH].
      destruct (base64ToArrayBuffer payload) as [buffer |];
        [| discriminate Hpart].
      rewrite (IH _ Hbefore Hrest).
      destruct streamer; simpl; [| reflexivity].
      unfold addPCM16. now rewrite <- app_assoc.
    + simpl. now apply IH.
Qed.


(** Parts that carry media types and whose audio payloads decode do not
    throw, and their payloads are the decoded ones. *)
Lemma decoded_parts_do_not_throw (parts : list Part) :
  forall payloads,
    List.map part_payload (filter is_audio_part parts) = List.map Some payloads ->
    forallb has_media_type parts = true ->
    forallb (fun part => negb (throws part)) parts = true
    /\ audio_payloads parts = payloads.
Proof.
  induction parts as [| part parts IH]; intros payloads H Htyped.
  - destruct payloads; [now split | discriminate H].
  - cbn [forallb] in Htyped. apply andb_true_iff in Htyped as [Hpart Htyped].
    change (audio_payloads (part :: parts))
      with ((if is_audio_part part
             then match part_payload part with Some buffer => [buffer] | None => [] end
             else []) ++ audio_payloads parts).
    cbn [forallb filter] in *.
    destruct part as [[[[type |] payload] |]];
      unfold throws, has_media_type, is_audio_part, part_payload in *;
      simpl in *; try discriminate Hpart; [| now apply IH].
    destruct (startsWith type AUDIO); simpl in *; [| now apply IH].
    destruct payloads as [| buffer payloads]; [discriminate H |].
    simpl in H. injection H as Hb Hrest. rewrite Hb. simpl.
    destruct (IH payloads Hrest Htyped) as [Hno Hpay].
    split; [exact Hno | now rewrite Hpay].
Qed.


Lemma base64_value_bound (c v : N) : base64_value c = Some v -> v < 64.
Proof.
  unfold base64_value.
  destruct (N.leb_spec 65 c), (N.leb_spec c 90); simpl;
    try (intros E; injection E as <-; lia).
  all: destruct (N.leb_spec 97 c), (N.leb_spec c 122); simpl;
    try (intros E; injection E as <-; lia).
  all: destruct (N.leb_spec 48 c), (N.leb_spec c 57); simpl;
    try (intros E; injection E as <-; lia).
  all: destruct (c =? 43); simpl; try (intros E; injection E as <-; lia).
  all: destruct (c =? 47); simpl; try (intros E; injection E as <-; lia).
  all: intros E; discriminate E.
Qed.

Lemma sextets_bound (s : jsstring) :
  forall vs, sextets s = Some vs -> Forall (fun v => v < 64) vs.
Proof.
  induction s as [| c s IH]; intros vs H; simpl in H.
  - injection H as <-. constructor.
  - destruct (base64_value c) as [v |] eqn:Hv; [| discriminate H].
    destruct (sextets s) as [vs' |]; [| discriminate H].
    injection H as <-. constructor; [now apply (base64_value_bound c) | now apply IH].
Qed.

Lemma bytes_of_sextets_bound (n : nat) :
  forall l, (length l <= n)%nat -> Forall (fun v => v < 64) l ->
            Forall (fun b => b < 256) (bytes_of_sextets l).
Proof.
  induction n as [| n IH]; intros l Hlen Hl.
  - destruct l; [constructor | simpl in Hlen; lia].
  - destruct l as [| a [| b [| c [| d r]]]]; simpl; try constructor.
    + inversion Hl as [| ? ? Ha Hl1]; subst. inversion Hl1 as [| ? ? Hb _]; subst.
      apply N.Div0.div_lt_upper_bound. lia.
    + constructor.
    + inversion Hl as [| ? ? Ha Hl1]; subst. inversion Hl1 as [| ? ? Hb Hl2]; subst.
      inversion Hl2 as [| ? ? Hc _]; subst.
      apply N.Div0.div_lt_upper_bound. lia.
    + constructor; [apply N.mod_lt; discriminate | constructor].
    + inversion Hl as [| ? ? Ha Hl1]; subst. inversion Hl1 as [| ? ? Hb Hl2]; subst.
      inversion Hl2 as [| ? ? Hc Hl3]; subst. inversion Hl3 as [| ? ? Hd _]; subst.
      apply N.Div0.div_lt_upper_bound. lia.
    + inversion Hl as [| ? ? Ha Hl1]; subst. inversion Hl1 as [| ? ? Hb Hl2]; subst.
      inversion Hl2 as [| ? ? Hc Hl3]; subst. inversion Hl3 as [| ? ? Hd Hr]; subst.
      constructor; [apply N.mod_lt; discriminate |].
      constructor; [apply N.mod_lt; discriminate |].
      apply IH; [simpl in Hlen; lia | exact Hr].
Qed.

Lemma base64ToArrayBuffer_bytes (s : jsstring) (bytes : list N) :
  base64ToArrayBuffer s = Some bytes -> Forall (fun b => b < 256) bytes.
Proof.
  unfold base64ToArrayBuffer.
  destruct (_ =? 1); [discriminate |].
  destruct (sextets _) as [vs |] eqn:Hvs; [| discriminate].
  simpl. intros H. injection H as <-.
  apply (bytes_of_sextets_bound (length vs)); [lia |].
  now apply sextets_bound in Hvs.
Qed.

End Synthesis.




(** ** Empty translations and failing stages *)

(** C9 (empty translation).  A response whose text is absent, or empty after
    trimming, makes [translateWithGemini] return [null].  The invocation
    that waits for it then goes straight back to the head of the loop, as it
    does when the promise had been resolved with [null] without a request:
    no item is appended, the streamer is not touched, only translation
    requests (for later segments) follow, and no error status is set. *)
Theorem empty_translation_is_null (st : State) (key chunk : jsstring)
  (text : option jsstring) :
  tasks st = [mkTask key (AwaitTranslate chunk Pending)] ->
  text = None \/ (exists t, text = Some t /\ trim t = []) ->
  translation_of_response text = None
  /\ step st (EvTranslateResponse 0 text) = processQueue_run key (set_tasks [] st)
  /\ step st (EvTranslateResponse 0 text)
     = step (set_tasks [mkTask key (AwaitTranslate chunk (Resolved None))] st)
         (EvMicrotask 0)
  /\ translations (step st (EvTranslateResponse 0 text)) = translations st
  /\ audioStreamerRef (step st (EvTranslateResponse 0 text)) = audioStreamerRef st
  /\ (exists reqs,
        network (step st (EvTranslateResponse 0 text)) = network st ++ reqs
        /\ Forall is_translate_request reqs)
  /\ (exists sts,
        statusLog (step st (EvTranslateResponse 0 text)) = statusLog st ++ sts
        /\ Forall quiet_status sts).
Proof.
  intros Ht Htext.
  assert (Hnull : translation_of_response text = None).
  { destruct Htext as [-> | (t & -> & Htrim)]; simpl; [reflexivity |].
    now rewrite Htrim. }
  assert (Hstep : step st (EvTranslateResponse 0 text)
                  = processQueue_run key (set_tasks [] st)).
  { simpl. unfold resume. rewrite Ht. simpl. now rewrite Hnull. }
  split; [exact Hnull |]. split; [exact Hstep |]. split.
  - rewrite Hstep. reflexivity.
  - rewrite Hstep. apply (processQueue_run_effects key (set_tasks [] st)).
Qed.

Lemma empty_translation_is_null_witness :
  translation_of_response (Some (js "  ")) = None
  /\ step (exec [EvEnqueue (js "key") (js "hello")])
       (EvTranslateResponse 0 (Some (js "  ")))
     = processQueue_run (js "key")
         (set_tasks [] (exec [EvEnqueue (js "key") (js "hello")]))
  /\ step (exec [EvEnqueue (js "key") (js "hello")])
       (EvTranslateResponse 0 (Some (js "  ")))
     = step (set_tasks [mkTask (js "key")
                          (AwaitTranslate (js "hello") (Resolved None))]
               (exec [EvEnqueue (js "key") (js "hello")]))
         (EvMicrotask 0)
  /\ translations (step (exec [EvEnqueue (js "key") (js "hello")])
                     (EvTranslateResponse 0 (Some (js "  "))))
     = translations (exec [EvEnqueue (js "key") (js "hello")])
  /\ audioStreamerRef (step (exec [EvEnqueue (js "key") (js "hello")])
                         (EvTranslateResponse 0 (Some (js "  "))))
     = audioStreamerRef (exec [EvEnqueue (js "key") (js "hello")])
  /\ (exists reqs,
        network (step (exec [EvEnqueue (js "key") (js "hello")])
                   (EvTranslateResponse 0 (Some (js "  "))))
        = network (exec [EvEnqueue (js "key") (js "hello")]) ++ reqs
        /\ Forall is_translate_request reqs)
  /\ (exists sts,
        statusLog (step (exec [EvEnqueue (js "key") (js "hello")])
                     (EvTranslateResponse 0 (Some (js "  "))))
        = statusLog (exec [EvEnqueue (js "key") (js "hello")]) ++ sts
        /\ Forall quiet_status sts).
Proof.
  apply (empty_translation_is_null (exec [EvEnqueue (js "key") (js "hello")])
           (js "key") (js "hello") (Some (js "  "))).
  - vm_compute. reflexivity.
  - right. exists (js "  "). split; vm_compute; reflexivity.
Defined.

(** C5, as stated, fails for the synthesis stage: its error is caught inside
    [speakWithGemini], and no status carries the failure. *)
Lemma synthesis_error_not_reported :
  statusLog (exec failing_synthesis_trace)
  = [STATUS_TRANSLATING; STATUS_SPEAKING; STATUS_TRANSLATING]
  /\ ~ In (STATUS_ERROR (js "503 unavailable"))
         (statusLog (exec failing_synthesis_trace))
  /\ forallb (fun s => negb (includes s (js "503 unavailable")))
       (statusLog (exec failing_synthesis_trace)) = true.
Proof.
  split; [vm_compute; reflexivity |]. split; [| vm_compute; reflexivity].
  intros Hin. vm_compute in Hin.
  repeat (destruct Hin as [Hin | Hin]; [discriminate Hin |]). exact Hin.
Qed.

(** C5, amended.  An error of the translation of a segment is caught in the
    loop of [processQueue]: the status is set to the error message, no item
    is appended, and the loop head takes the next segment of the queue (or
    leaves the loop when the queue is empty).  An error of the synthesis is
    caught inside [speakWithGemini]: the item of the segment has been
    appended before, no status is set for the error, and the loop head
    takes the next segment as well.  So in a complete run, whatever the
    latencies and whichever calls fail, the items are exactly those of the
    segments that got a translation (the ones whose synthesis failed
    included), each behind the items of the earlier segments, every failed
    translation call has set its error status, and the queue ends idle and
    empty; and in every interleaving the items follow the enqueue order. *)
Theorem segment_failure_isolation (key : jsstring) (jobs : list Job)
  (moves : list Move) (trace : list Event) :
  truthy key = true ->
  forallb job_ok jobs = true ->
  schedule key moves jobs [] None = Some trace ->
  translations (exec trace) = job_items jobs
  /\ (forall j translated,
        In j jobs -> job_result j = Some translated ->
        In (mkItem (job_text j) translated) (translations (exec trace)))
  /\ incl (job_errors jobs) (statusLog (exec trace))
  /\ (processingQueue (exec trace) = false /\ tasks (exec trace) = []
      /\ translationQueue (exec trace) = [])
  /\ (forall events k chunk message,
        tasks (exec events) = [mkTask k (AwaitTranslate chunk Pending)] ->
        step (exec events) (EvTranslateError 0 message)
        = processQueue_run k
            (setStatus (STATUS_ERROR message) (set_tasks [] (exec events)))
        /\ translations (step (exec events) (EvTranslateError 0 message))
           = translations (exec events)
        /\ pending (step (exec events) (EvTranslateError 0 message))
           = translationQueue (exec events)
        /\ (exists sts,
              statusLog (step (exec events) (EvTranslateError 0 message))
              = statusLog (exec events) ++ [STATUS_ERROR message] ++ sts
              /\ Forall quiet_status sts)
        /\ (translationQueue (exec events) = [] ->
            processingQueue (step (exec events) (EvTranslateError 0 message))
            = false
            /\ tasks (step (exec events) (EvTranslateError 0 message)) = [])
        /\ (forall next rest,
              translationQueue (exec events) = next :: rest ->
              translationQueue (step (exec events) (EvTranslateError 0 message))
              = rest
              /\ exists p,
                   tasks (step (exec events) (EvTranslateError 0 message))
                   = [mkTask k (AwaitTranslate next p)]))
  /\ (forall events k chunk translated message,
        tasks (exec events) = [mkTask k (AwaitSpeak chunk translated Pending)] ->
        (exists items,
           translations (exec events) = items ++ [mkItem chunk translated])
        /\ step (exec events) (EvSpeakError 0 message)
           = processQueue_run k (set_tasks [] (exec events))
        /\ translations (step (exec events) (EvSpeakError 0 message))
           = translations (exec events)
        /\ pending (step (exec events) (EvSpeakError 0 message))
           = translationQueue (exec events)
        /\ (exists sts,
              statusLog (step (exec events) (EvSpeakError 0 message))
              = statusLog (exec events) ++ sts
              /\ Forall quiet_status sts)
        /\ (translationQueue (exec events) = [] ->
            processingQueue (step (exec events) (EvSpeakError 0 message)) = false
            /\ tasks (step (exec events) (EvSpeakError 0 message)) = [])
        /\ (forall next rest,
              translationQueue (exec events) = next :: rest ->
              translationQueue (step (exec events) (EvSpeakError 0 message))
              = rest
              /\ exists p,
                   tasks (step (exec events) (EvSpeakError 0 message))
                   = [mkTask k (AwaitTranslate next p)]))
  /\ (forall events, exists done,
        enqueued events = List.map fst done ++ pending (exec events)
        /\ translations (exec events) = produced done).
Proof.
  intros Hkey Hok Hsched.
  destruct (schedule_run key Hkey moves jobs [] None trace initial
              (job_ok_all jobs Hok) Hsched (at_position_initial key))
    as (Htrs & Hidle & (sts & Hsts & Hincl) & _).
  cbn [app translations statusLog initial] in Htrs, Hsts, Hincl.
  assert (Hrunning : forall events t, tasks (exec events) = [t] ->
            running (set_tasks [] (exec events))).
  { intros events t Ht. destruct (exec_inv events) as ((Hidle' & _ & Hq) & _).
    destruct (processingQueue (exec events)) eqn:Hp.
    - now repeat split.
    - destruct (Hidle' eq_refl) as [Hnil _]. congruence. }
  split; [exact Htrs |]. split; [| split; [| split; [exact Hidle |]]].
  - intros j translated Hj Hres. unfold exec. rewrite Htrs.
    apply in_flat_map. exists j. split; [exact Hj |]. rewrite Hres. now left.
  - unfold exec. now rewrite Hsts.
  - split; [| split].
    + intros events k chunk message Ht.
      assert (Hstep : step (exec events) (EvTranslateError 0 message)
                      = processQueue_run k
                          (setStatus (STATUS_ERROR message)
                             (set_tasks [] (exec events)))).
      { simpl. unfold resume. rewrite Ht. reflexivity. }
      split; [exact Hstep |]. rewrite Hstep.
      assert (Hrun : running (setStatus (STATUS_ERROR message)
                                (set_tasks [] (exec events)))).
      { destruct (Hrunning _ _ Ht) as (H1 & H2 & H3). now repeat split. }
      destruct (processQueue_run_inv k _ Hrun) as (_ & H2 & H3 & _).
      destruct (processQueue_run_effects k
                  (setStatus (STATUS_ERROR message) (set_tasks [] (exec events))))
        as (_ & _ & _ & (sts' & H4 & H5)).
      destruct (run_takes_next k _ Hrun) as [Hlast Hnext].
      split; [exact H3 |]. split; [exact H2 |]. split.
      { exists sts'. split; [| exact H5]. rewrite H4. simpl.
        now rewrite <- app_assoc. }
      split; [exact Hlast | exact Hnext].
    + intros events k chunk translated message Ht.
      split.
      { pose proof (speaking_has_item_exec events) as Hitem.
        unfold speaking_has_item in Hitem. rewrite Ht in Hitem.
        inversion Hitem as [| ? ? Hhead _]; subst. exact Hhead. }
      assert (Hstep : step (exec events) (EvSpeakError 0 message)
                      = processQueue_run k (set_tasks [] (exec events))).
      { simpl. unfold resume. rewrite Ht. reflexivity. }
      split; [exact Hstep |]. rewrite Hstep.
      destruct (processQueue_run_inv k _ (Hrunning _ _ Ht)) as (_ & H2 & H3 & _).
      destruct (processQueue_run_effects k (set_tasks [] (exec events)))
        as (_ & _ & _ & (sts' & H4 & H5)).
      destruct (run_takes_next k _ (Hrunning _ _ Ht)) as [Hlast Hnext].
      split; [exact H3 |]. split; [exact H2 |]. split.
      { exists sts'. split; [exact H4 | exact H5]. }
      split; [exact Hlast | exact Hnext].
    + intros events. destruct (exec_inv events) as (_ & done & Hacc).
      exists done. exact Hacc.
Qed.

Lemma segment_failure_isolation_witness :
  translations (exec example_trace) = job_items example_jobs
  /\ (forall j translated,
        In j example_jobs -> job_result j = Some translated ->
        In (mkItem (job_text j) translated) (translations (exec example_trace)))
  /\ incl (job_errors example_jobs) (statusLog (exec example_trace))
  /\ (processingQueue (exec example_trace) = false /\ tasks (exec example_trace) = []
      /\ translationQueue (exec example_trace) = [])
  /\ (forall events k chunk message,
        tasks (exec events) = [mkTask k (AwaitTranslate chunk Pending)] ->
        step (exec events) (EvTranslateError 0 message)
        = processQueue_run k
            (setStatus (STATUS_ERROR message) (set_tasks [] (exec events)))
        /\ translations (step (exec events) (EvTranslateError 0 message))
           = translations (exec events)
        /\ pending (step (exec events) (EvTranslateError 0 message))
           = translationQueue (exec events)
        /\ (exists sts,
              statusLog (step (exec events) (EvTranslateError 0 message))
              = statusLog (exec events) ++ [STATUS_ERROR message] ++ sts
              /\ Forall quiet_status sts)
        /\ (translationQueue (exec events) = [] ->
            processingQueue (step (exec events) (EvTranslateError 0 message))
            = false
            /\ tasks (step (exec events) (EvTranslateError 0 message)) = [])
        /\ (forall next rest,
              translationQueue (exec events) = next :: rest ->
              translationQueue (step (exec events) (EvTranslateError 0 message))
              = rest
              /\ exists p,
                   tasks (step (exec events) (EvTranslateError 0 message))
                   = [mkTask k (AwaitTranslate next p)]))
  /\ (forall events k chunk translated message,
        tasks (exec events) = [mkTask k (AwaitSpeak chunk translated Pending)] ->
        (exists items,
           translations (exec events) = items ++ [mkItem chunk translated])
        /\ step (exec events) (EvSpeakError 0 message)
           = processQueue_run k (set_tasks [] (exec events))
        /\ translations (step (exec events) (EvSpeakError 0 message))
           = translations (exec events)
        /\ pending (step (exec events) (EvSpeakError 0 message))
           = translationQueue (exec events)
        /\ (exists sts,
              statusLog (step (exec events) (EvSpeakError 0 message))
              = statusLog (exec events) ++ sts
              /\ Forall quiet_status sts)
        /\ (translationQueue (exec events) = [] ->
            processingQueue (step (exec events) (EvSpeakError 0 message)) = false
            /\ tasks (step (exec events) (EvSpeakError 0 message)) = [])
        /\ (forall next rest,
              translationQueue (exec events) = next :: rest ->
              translationQueue (step (exec events) (EvSpeakError 0 message))
              = rest
              /\ exists p,
                   tasks (step (exec events) (EvSpeakError 0 message))
                   = [mkTask k (AwaitTranslate next p)]))
  /\ (forall events, exists done,
        enqueued events = List.map fst done ++ pending (exec events)
        /\ translations (exec events) = produced done).
Proof.
  apply (segment_failure_isolation (js "key") example_jobs example_moves
           example_trace); vm_compute; reflexivity.
Defined.

(** * Further properties *)

(** ** Trimming *)

Section Trim.

Lemma dropWhile_spec (p : N -> bool) (s : jsstring) :
  exists pre,
    s = pre ++ dropWhile p s
    /\ Forall (fun c => p c = true) pre
    /\ match dropWhile p s with [] => True | c :: _ => p c = false end.
Proof.
  induction s as [| c s (pre & Heq & Hpre & Hhd)]; simpl.
  - exists []. repeat split; constructor.
  - destruct (p c) eqn:Hc.
    + exists (c :: pre). simpl. split; [now f_equal |].
      split; [now constructor | exact Hhd].
    + exists []. simpl. split; [reflexivity |]. split; [constructor | exact Hc].
Qed.

Lemma dropWhile_all (p : N -> bool) (pre s : jsstring) :
  Forall (fun c => p c = true) pre -> dropWhile p (pre ++ s) = dropWhile p s.
Proof.
  induction 1 as [| c pre Hc _ IH]; simpl; [reflexivity |]. now rewrite Hc.
Qed.

Lemma dropWhile_stop (p : N -> bool) (s : jsstring) :
  match s with [] => True | c :: _ => p c = false end -> dropWhile p s = s.
Proof. destruct s as [| c s]; simpl; [reflexivity |]. now intros ->. Qed.

Lemma dropWhile_stop_app (p : N -> bool) (s t : jsstring) :
  s <> [] -> match s with [] => True | c :: _ => p c = false end ->
  dropWhile p (s ++ t) = s ++ t.
Proof. destruct s as [| c s]; simpl; [congruence |]. now intros _ ->. Qed.

(** [trim] removes a whitespace prefix and a whitespace suffix, and nothing
    else. *)
Lemma trim_unique (pre t post : jsstring) :
  Forall (fun c => is_whitespace c = true) pre ->
  Forall (fun c => is_whitespace c = true) post ->
  clean_ends t ->
  trim (pre ++ t ++ post) = t.
Proof.
  intros Hpre Hpost [Hhd Htl]. unfold trim, trimStart, trimEnd.
  rewrite (dropWhile_all _ pre _ Hpre).
  assert (Hrev : Forall (fun c => is_whitespace c = true) (rev post))
    by (apply Forall_forall; intros c Hc; apply in_rev in Hc;
        revert c Hc; now apply Forall_forall).
  destruct t as [| c t].
  - simpl. replace post with (post ++ []) by apply app_nil_r.
    rewrite (dropWhile_all _ post [] Hpost). reflexivity.
  - rewrite (dropWhile_stop_app _ (c :: t) post); [| discriminate | exact Hhd].
    rewrite rev_app_distr, (dropWhile_all _ _ _ Hrev).
    rewrite (dropWhile_stop _ _ Htl). apply rev_involutive.
Qed.

Lemma trim_decompose (s : jsstring) :
  exists pre post,
    s = pre ++ trim s ++ post
    /\ Forall (fun c => is_whitespace c = true) pre
    /\ Forall (fun c => is_whitespace c = true) post
    /\ clean_ends (trim s).
Proof.
  unfold trim, trimStart, trimEnd.
  destruct (dropWhile_spec is_whitespace s) as (pre & Hs & Hpre & Hhd).
  set (m := dropWhile is_whitespace s) in *.
  destruct (dropWhile_spec is_whitespace (rev m)) as (tsop & Hm & Hpost & Htl).
  set (r := dropWhile is_whitespace (rev m)) in *.
  exists pre, (rev tsop).
  assert (Hmid : m = rev r ++ rev tsop).
  { rewrite <- (rev_involutive m), Hm, rev_app_distr. reflexivity. }
  split; [now rewrite <- Hmid |].
  split; [exact Hpre |].
  split.
  { apply Forall_forall. intros c Hc. apply in_rev in Hc.
    revert c Hc. now apply Forall_forall. }
  split.
  - destruct (rev r) as [| c t] eqn:Hr; [exact I |].
    rewrite Hmid in Hhd. exact Hhd.
  - rewrite rev_involutive. exact Htl.
Qed.

Lemma trim_clean (s : jsstring) : clean_ends (trim s).
Proof. now destruct (trim_decompose s) as (_ & _ & _ & _ & _ & H). Qed.

Lemma trim_id (t : jsstring) : clean_ends t -> trim t = t.
Proof.
  intros H. rewrite <- (trim_unique [] t [] (Forall_nil _) (Forall_nil _) H) at 2.
  simpl. now rewrite app_nil_r.
Qed.

Lemma trim_idempotent (s : jsstring) : trim (trim s) = trim s.
Proof. apply trim_id, trim_clean. Qed.

Lemma trim_padding (pre s post : jsstring) :
  Forall (fun c => is_whitespace c = true) pre ->
  Forall (fun c => is_whitespace c = true) post ->
  trim (pre ++ s ++ post) = trim s.
Proof.
  intros Hpre Hpost.
  destruct (trim_decompose s) as (pre' & post' & Hs & Hpre' & Hpost' & Hclean).
  rewrite Hs at 1.
  replace (pre ++ (pre' ++ trim s ++ post') ++ post)
    with ((pre ++ pre') ++ trim s ++ (post' ++ post))
    by now rewrite <- !app_assoc.
  apply trim_unique; auto; apply Forall_app; now split.
Qed.

End Trim.

(** ** The prose that [parseVTT] returns *)

Section Prose.

Lemma starts_app (a b : jsstring) :
  a <> [] -> starts_without_whitespace a -> starts_without_whitespace (a ++ b).
Proof. destruct a; simpl; [congruence | auto]. Qed.

Lemma join_clean (l : list jsstring) :
  Forall (fun x => x <> [] /\ clean_ends x) l ->
  clean_ends (join SPACE l) /\ (l <> [] -> join SPACE l <> []).
Proof.
  induction 1 as [| x l [Hx [Hhd Htl]] Hl [[IHhd IHtl] IHne]].
  - split; [split; exact I | intros H; now contradiction H].
  - destruct l as [| y r].
    + simpl. split; [now split | auto].
    + assert (Hne : join SPACE (y :: r) <> []) by (apply IHne; discriminate).
      change (join SPACE (x :: y :: r)) with (x ++ SPACE ++ join SPACE (y :: r)).
      split; [split |].
      * now apply starts_app.
      * rewrite !rev_app_distr, <- app_assoc. apply starts_app; [| exact IHtl].
        intros H. apply (f_equal (@rev N)) in H.
        rewrite rev_involutive in H. simpl in H. contradiction.
      * intros _ H. apply app_eq_nil in H as [H _]. contradiction.
Qed.

Lemma kept_lines_clean (lines : list jsstring) :
  Forall (fun x => x <> [] /\ clean_ends x) (kept_lines lines).
Proof.
  apply Forall_forall. intros x Hx. unfold kept_lines in Hx.
  apply filter_In in Hx as [Hin Hkeep].
  apply in_map_iff in Hin as (l & <- & _).
  split; [| apply trim_clean].
  intros Hnil. rewrite Hnil in Hkeep. discriminate Hkeep.
Qed.

Lemma split_nl_no_line_feed (s : jsstring) :
  Forall (fun l => no_line_feed l = true) (split_nl s).
Proof.
  induction s as [| c s IH]; simpl.
  - repeat constructor.
  - destruct (c =? 10) eqn:Hc.
    + constructor; [reflexivity | exact IH].
    + destruct (split_nl s) as [| l ls]; [repeat constructor; simpl; now rewrite Hc |].
      inversion IH as [| ? ? Hl Hls]; subst.
      constructor; [| exact Hls]. unfold no_line_feed in *. simpl. now rewrite Hc, Hl.
Qed.

Lemma trim_no_line_feed (s : jsstring) :
  no_line_feed s = true -> no_line_feed (trim s) = true.
Proof.
  intros H. destruct (trim_decompose s) as (pre & post & Hs & _).
  unfold no_line_feed in *. rewrite Hs, !forallb_app in H.
  apply andb_prop in H as [_ H]. now apply andb_prop in H as [H _].
Qed.

Lemma join_no_line_feed (l : list jsstring) :
  Forall (fun x => no_line_feed x = true) l -> no_line_feed (join SPACE l) = true.
Proof.
  induction 1 as [| x l Hx Hl IH]; [reflexivity |].
  destruct l as [| y r]; [exact Hx |].
  change (join SPACE (x :: y :: r)) with (x ++ SPACE ++ join SPACE (y :: r)).
  unfold no_line_feed in *. rewrite !forallb_app, Hx, IH. reflexivity.
Qed.

Lemma split_nl_join (lines : list jsstring) :
  lines <> [] -> Forall (fun l => no_line_feed l = true) lines ->
  split_nl (join LF lines) = lines.
Proof.
  intros Hne Hall. induction Hall as [| x l Hx Hl IH]; [congruence |].
  destruct l as [| y r].
  - simpl. now apply split_nl_line.
  - change (join LF (x :: y :: r)) with (x ++ LF ++ join LF (y :: r)).
    rewrite split_nl_app, (split_nl_line x Hx), IH; [reflexivity | discriminate].
Qed.

Lemma kept_lines_join (lines : list jsstring) :
  Forall (fun l => no_line_feed l = true) lines ->
  kept_lines (split_nl (join LF lines)) = kept_lines lines.
Proof.
  intros Hall. destruct lines as [| x l]; [reflexivity |].
  rewrite split_nl_join; [reflexivity | discriminate | exact Hall].
Qed.

Lemma parseVTT_clean (vtt : jsstring) : clean_ends (parseVTT vtt).
Proof.
  rewrite parseVTT_lines. fold (kept_lines (split_nl vtt)).
  apply join_clean, kept_lines_clean.
Qed.

End Prose.

(** X1.  The prose that [parseVTT] returns never starts or ends with
    whitespace and holds no line feed; it is empty exactly when every line
    of the document is discarded. *)
Theorem parseVTT_prose_shape (vtt : jsstring) :
  clean_ends (parseVTT vtt)
  /\ no_line_feed (parseVTT vtt) = true
  /\ (parseVTT vtt = [] <->
      forallb (fun l => is_discarded (trim l)) (split_nl vtt) = true).
Proof.
  rewrite parseVTT_lines. fold (kept_lines (split_nl vtt)).
  destruct (join_clean _ (kept_lines_clean (split_nl vtt))) as [Hclean Hne].
  split; [exact Hclean |]. split.
  - apply join_no_line_feed. apply Forall_forall. intros x Hx.
    unfold kept_lines in Hx. apply filter_In in Hx as [Hin _].
    apply in_map_iff in Hin as (l & <- & Hl).
    apply trim_no_line_feed.
    pose proof (split_nl_no_line_feed vtt) as Hall.
    rewrite Forall_forall in Hall. now apply Hall.
  - assert (Hk : kept_lines (split_nl vtt) = [] <->
                 forallb (fun l => is_discarded (trim l)) (split_nl vtt) = true).
    { clear Hclean Hne. unfold kept_lines.
      induction (split_nl vtt) as [| l ls IH]; simpl.
      - tauto.
      - destruct (is_discarded (trim l)); simpl; [exact IH |].
        split; discriminate. }
    split.
    + intros H. apply Hk.
      destruct (kept_lines (split_nl vtt)) as [| x l]; [reflexivity |].
      exfalso. apply Hne; [discriminate | exact H].
    + intros H. apply Hk in H. now rewrite H.
Qed.

(** X2.  [parseVTT] sees a line only through its trimmed content: two
    documents whose lines agree after trimming parse to the same prose, so
    carriage returns at the line ends and indentation change nothing. *)
Theorem parseVTT_padding_insensitive (lines1 lines2 : list jsstring) :
  Forall (fun l => no_line_feed l = true) lines1 ->
  Forall (fun l => no_line_feed l = true) lines2 ->
  List.map trim lines1 = List.map trim lines2 ->
  parseVTT (join LF lines1) = parseVTT (join LF lines2).
Proof.
  intros H1 H2 Heq. rewrite !parseVTT_lines.
  fold (kept_lines (split_nl (join LF lines1))).
  fold (kept_lines (split_nl (join LF lines2))).
  rewrite (kept_lines_join _ H1), (kept_lines_join _ H2).
  unfold kept_lines. now rewrite Heq.
Qed.

Lemma parseVTT_padding_insensitive_witness :
  parseVTT (join LF padded_cue_lines) = parseVTT (join LF crlf_cue_lines).
Proof.
  apply (parseVTT_padding_insensitive padded_cue_lines crlf_cue_lines);
    vm_compute; repeat constructor.
Defined.

(** ** The timers of an imported transcript *)

Section Timers.

Lemma indexed_bounds {A : Type} (l : list A) :
  forall i, Forall (fun p => i <= fst p < i + N.of_nat (length l)) (indexed i l).
Proof.
  induction l as [| x l IH]; intros i; simpl; constructor.
  - simpl. lia.
  - eapply Forall_impl; [| apply (IH (i + 1))]. simpl. intros p. lia.
Qed.

Lemma indexed_sorted {A : Type} (l : list A) :
  forall i, StronglySorted (fun p q => fst p < fst q) (indexed i l).
Proof.
  induction l as [| x l IH]; intros i; simpl; constructor.
  - apply IH.
  - eapply Forall_impl; [| apply (indexed_bounds l (i + 1))]. simpl. intros p. lia.
Qed.

Lemma indexed_snd {A : Type} (l : list A) :
  forall i, List.map snd (indexed i l) = l.
Proof. induction l as [| x l IH]; intros i; simpl; [| rewrite IH]; reflexivity. Qed.

Lemma StronglySorted_filter {A : Type} (R : A -> A -> Prop) (f : A -> bool)
  (l : list A) :
  StronglySorted R l -> StronglySorted R (filter f l).
Proof.
  induction 1 as [| x l Hs IH Hx]; simpl; [constructor |].
  destruct (f x); [| exact IH].
  constructor; [exact IH |].
  apply Forall_forall. intros y Hy. apply filter_In in Hy as [Hy _].
  rewrite Forall_forall in Hx. now apply Hx.
Qed.

Lemma StronglySorted_map {A B : Type} (R : A -> A -> Prop) (S : B -> B -> Prop)
  (g : A -> B) (l : list A) :
  (forall x y, R x y -> S (g x) (g y)) ->
  StronglySorted R l -> StronglySorted S (List.map g l).
Proof.
  intros Hg. induction 1 as [| x l Hs IH Hx]; simpl; constructor; [exact IH |].
  apply Forall_forall. intros y Hy. apply in_map_iff in Hy as (z & <- & Hz).
  rewrite Forall_forall in Hx. now apply Hg, Hx.
Qed.

Lemma starts_app_inv (a b : jsstring) :
  a <> [] -> starts_without_whitespace (a ++ b) -> starts_without_whitespace a.
Proof. destruct a; simpl; [congruence | auto]. Qed.

Lemma split_units_clean (text : jsstring) (units : list jsstring) :
  SentenceSplit text units -> text <> [] -> clean_ends text ->
  Forall (fun u => u <> [] /\ clean_ends u) units.
Proof.
  induction 1 as [u Hnb | u t ws rest units Hnb Ht Hws Hall Hrest Hsplit IH];
    intros Hne [Hhd Htl].
  - repeat constructor; assumption.
  - assert (Hunit : u ++ [t] <> []) by (destruct u; discriminate).
    assert (Hrne : rest <> []).
    { intros ->. rewrite app_nil_r, rev_app_distr in Htl.
      destruct ws as [| w ws] using rev_ind; [congruence |].
      rewrite rev_app_distr in Htl. simpl in Htl.
      apply Forall_app in Hall as [_ Hw]. inversion Hw; subst. congruence. }
    constructor.
    + split; [exact Hunit |]. split.
      * now apply (starts_app_inv _ (ws ++ rest)).
      * rewrite rev_app_distr. simpl.
        destruct (is_whitespace t) eqn:Hwt; [| reflexivity].
        apply whitespace_not_sentence_end in Hwt. congruence.
    + apply IH; [exact Hrne |]. split; [exact Hrest |].
      rewrite !rev_app_distr, <- !app_assoc in Htl.
      apply (starts_app_inv _ _) in Htl; [exact Htl |].
      intros H. apply (f_equal (@rev N)) in H. rewrite rev_involutive in H.
      simpl in H. contradiction.
Qed.

Lemma submissions_all (sentences : list jsstring) :
  Forall (fun u => u <> [] /\ clean_ends u) sentences ->
  forall i,
    List.map (fun p => mkTimer (100 * fst p) (trim (snd p)))
      (filter (fun p => truthy (trim (snd p))) (indexed i sentences))
    = List.map (fun p => mkTimer (100 * fst p) (snd p)) (indexed i sentences).
Proof.
  induction 1 as [| u l [Hne Hclean] Hl IH]; intros i; [reflexivity |].
  assert (Htruthy : truthy u = true) by (destruct u; [congruence | reflexivity]).
  cbn [indexed filter List.map fst snd].
  rewrite (trim_id u Hclean), Htruthy.
  cbn [List.map fst snd]. now rewrite (trim_id u Hclean), IH.
Qed.

Lemma enqueued_calls (trace : list Event) :
  Forall (fun text => truthy text = true) (enqueue_calls trace) ->
  enqueued trace = enqueue_calls trace.
Proof.
  induction trace as [| ev trace IH]; simpl; [reflexivity |].
  intros H. apply Forall_app in H as [Hev Htrace].
  unfold enqueued in *. simpl. rewrite (IH Htrace). f_equal.
  destruct ev; simpl in *; try reflexivity.
  inversion Hev as [| ? ? Htext _]; subst. now rewrite Htext.
Qed.

Lemma split_sentences_splits (text : jsstring) :
  SentenceSplit text (split_sentences text).
Proof.
  unfold split_sentences.
  apply (split_loop_splits (S (length text)) None [] text).
  - lia.
  - apply no_boundary_nil.
  - split.
    + intros u x H. destruct u; discriminate H.
    + intros _ t H. discriminate H.
Qed.

Lemma queue_sentences_truthy (text : jsstring) :
  Forall (fun t => truthy (timer_text t) = true) (queue_sentences text).
Proof.
  unfold queue_sentences. rewrite forEach_sentence_spec, app_nil_l.
  apply Forall_forall. intros t Hin.
  apply in_map_iff in Hin as (p & <- & Hp).
  apply filter_In in Hp as [_ Hp]. exact Hp.
Qed.

End Timers.

(** X3.  The timers that [fetchZoomTranscript] registers have strictly
    increasing delays in registration order, each a multiple of 100 ms below
    100 ms times the number of units: they fire in sentence order. *)
Theorem queue_sentences_delays (cleanText : jsstring) :
  StronglySorted (fun a b => delay_ms a < delay_ms b) (queue_sentences cleanText)
  /\ Forall (fun t => exists i,
               delay_ms t = 100 * i
               /\ i < N.of_nat (length (split_sentences cleanText)))
       (queue_sentences cleanText).
Proof.
  unfold queue_sentences. rewrite forEach_sentence_spec. rewrite app_nil_l. split.
  - apply StronglySorted_map with (R := fun p q => fst p < fst q).
    + intros x y Hxy. cbn [delay_ms]. lia.
    + apply StronglySorted_filter, indexed_sorted.
  - apply Forall_forall. intros t Ht.
    apply in_map_iff in Ht as (p & <- & Hp). apply filter_In in Hp as [Hp _].
    pose proof (indexed_bounds (split_sentences cleanText) 0) as Hb.
    rewrite Forall_forall in Hb. specialize (Hb p Hp).
    exists (fst p). cbn [delay_ms]. split; [reflexivity | simpl in Hb; lia].
Qed.

(** X4.  On the prose of a parsed transcript (not empty, as the guard of
    [fetchZoomTranscript] ensures) no unit is skipped and none is changed by
    the trimming: the texts of the timers are the units of the split, the
    delays are 0, 100, 200, ... without a gap. *)
Theorem queue_sentences_of_parsed (vtt : jsstring) :
  parseVTT vtt <> [] ->
  queue_sentences (parseVTT vtt)
  = List.map (fun p => mkTimer (100 * fst p) (snd p))
      (indexed 0 (split_sentences (parseVTT vtt)))
  /\ List.map timer_text (queue_sentences (parseVTT vtt))
     = split_sentences (parseVTT vtt).
Proof.
  intros Hne.
  pose proof (split_units_clean _ _ (split_sentences_splits (parseVTT vtt)) Hne
                (parseVTT_clean vtt)) as Hunits.
  assert (Heq : queue_sentences (parseVTT vtt)
                = List.map (fun p => mkTimer (100 * fst p) (snd p))
                    (indexed 0 (split_sentences (parseVTT vtt)))).
  { unfold queue_sentences. rewrite forEach_sentence_spec, app_nil_l.
    now apply submissions_all. }
  split; [exact Heq |].
  rewrite Heq, map_map. cbn [timer_text]. apply indexed_snd.
Qed.

Lemma queue_sentences_of_parsed_witness :
  queue_sentences (parseVTT example_cues)
  = List.map (fun p => mkTimer (100 * fst p) (snd p))
      (indexed 0 (split_sentences (parseVTT example_cues)))
  /\ List.map timer_text (queue_sentences (parseVTT example_cues))
     = split_sentences (parseVTT example_cues).
Proof.
  apply (queue_sentences_of_parsed example_cues).
  vm_compute. discriminate.
Defined.

(** X5.  When the timers of a transcript fire in delay order, every call is
    accepted, and whatever the interleaving with the completions of the
    stages, the sentences are accounted for in sentence order: first those
    past their translation, with the items they produced, then the one in
    translation, then the queue. *)
Theorem imported_sentences_in_order (cleanText : jsstring) (trace : list Event) :
  enqueue_calls trace = List.map timer_text (queue_sentences cleanText) ->
  enqueued trace = List.map timer_text (queue_sentences cleanText)
  /\ exists done,
       List.map timer_text (queue_sentences cleanText)
       = List.map fst done ++ pending (exec trace)
       /\ translations (exec trace) = produced done.
Proof.
  intros Hcalls.
  assert (Henq : enqueued trace = List.map timer_text (queue_sentences cleanText)).
  { rewrite <- Hcalls. apply enqueued_calls. rewrite Hcalls.
    pose proof (queue_sentences_truthy cleanText) as Hall.
    apply Forall_forall. intros text Htext.
    apply in_map_iff in Htext as (t & <- & Ht).
    rewrite Forall_forall in Hall. now apply Hall. }
  split; [exact Henq |].
  destruct (exec_inv trace) as (_ & done & Hacc & Htr).
  exists done. rewrite <- Henq. now split.
Qed.

Lemma imported_sentences_in_order_witness :
  enqueued example_import_trace
  = List.map timer_text (queue_sentences (parseVTT example_cues))
  /\ exists done,
       List.map timer_text (queue_sentences (parseVTT example_cues))
       = List.map fst done ++ pending (exec example_import_trace)
       /\ translations (exec example_import_trace) = produced done.
Proof.
  apply (imported_sentences_in_order (parseVTT example_cues) example_import_trace).
  vm_compute. reflexivity.
Defined.

(** ** What the queue keeps and what it asks for *)

Section Growth.

Lemma grows_refl (st : State) : grows st st.
Proof.
  split; [exists []; now rewrite app_nil_r |].
  intros a Ha. exists []. now rewrite app_nil_r.
Qed.

Lemma grows_trans (st1 st2 st3 : State) :
  grows st1 st2 -> grows st2 st3 -> grows st1 st3.
Proof.
  intros [[i1 H1] A1] [[i2 H2] A2]. split.
  - exists (i1 ++ i2). now rewrite H2, H1, app_assoc.
  - intros a Ha. destruct (A1 a Ha) as [b1 Hb1].
    destruct (A2 _ Hb1) as [b2 Hb2]. exists (b1 ++ b2).
    now rewrite Hb2, app_assoc.
Qed.

Lemma grows_same (st st' : State) :
  translations st' = translations st ->
  audioStreamerRef st' = audioStreamerRef st -> grows st st'.
Proof.
  intros Ht Ha. split; [exists []; now rewrite app_nil_r |].
  intros a H. exists []. now rewrite app_nil_r, Ha.
Qed.

Lemma processQueue_run_grows (key : jsstring) (st : State) :
  grows st (processQueue_run key st).
Proof.
  destruct (processQueue_run_effects key st) as (H1 & H2 & _).
  now apply grows_same.
Qed.

Lemma feed_parts_extends (parts : list Part) :
  forall a, exists buffers, fst (feed_parts parts (Some a)) = Some (a ++ buffers).
Proof.
  induction parts as [| [[[[type |] payload] |]] parts IH]; intros a; simpl.
  - exists []. now rewrite app_nil_r.
  - destruct (startsWith type AUDIO); [| apply IH].
    destruct (base64ToArrayBuffer payload) as [buffer |]; simpl.
    + destruct (IH (addPCM16 a buffer)) as [buffers H].
      exists (buffer :: buffers). rewrite H. unfold addPCM16.
      now rewrite <- app_assoc.
    + exists []. now rewrite app_nil_r.
  - exists []. now rewrite app_nil_r.
  - apply IH.
Qed.

Lemma after_translate_grows (key chunk : jsstring)
  (c : Completion (option jsstring)) (st : State) :
  grows st (after_translate key chunk c st).
Proof.
  destruct c as [[translated |] | message]; simpl;
    try apply processQueue_run_grows.
  - destruct (truthy translated); [| apply processQueue_run_grows].
    unfold speakWithGemini. destruct (truthy key); simpl;
      (split; [now eexists | intros a Ha; exists []; now rewrite app_nil_r]).
  - eapply grows_trans; [| apply processQueue_run_grows]. now apply grows_same.
Qed.

Lemma after_speak_grows (key : jsstring) (c : Completion (option (list Part)))
  (st : State) :
  grows st (after_speak key c st).
Proof.
  destruct c as [[parts |] | message]; simpl; try apply processQueue_run_grows.
  eapply grows_trans; [| apply processQueue_run_grows].
  split; [exists []; now rewrite app_nil_r |].
  intros a Ha. simpl. rewrite Ha. apply feed_parts_extends.
Qed.

Lemma resume_grows (i : nat) (k : Task -> option (State -> State)) (st : State) :
  (forall t f, k t = Some f -> forall st', grows st' (f st')) ->
  grows st (resume i k st).
Proof.
  intros Hk. unfold resume.
  destruct (nth_error (tasks st) i) as [t |]; [| apply grows_refl].
  destruct (k t) as [f |] eqn:Hf; [| apply grows_refl].
  eapply grows_trans; [| apply (Hk t f Hf)]. now apply grows_same.
Qed.

Lemma step_grows (st : State) (ev : Event) : grows st (step st ev).
Proof.
  destruct ev as [| key text | i | i text | i message | i parts | i message];
    simpl step.
  - unfold initAudioStreamer. destruct (audioStreamerRef st) eqn:Ha;
      [apply grows_refl |].
    split; [exists []; now rewrite app_nil_r | intros a H; congruence].
  - unfold enqueueTranslation. destruct (truthy text); simpl; [| apply grows_refl].
    destruct (processingQueue st) eqn:Hp; simpl; [now apply grows_same |].
    unfold processQueue. simpl. rewrite Hp.
    eapply grows_trans; [| apply processQueue_run_grows]. now apply grows_same.
  - apply resume_grows. intros t f Hf st'.
    destruct (awaiting t) as [chunk [v |] | chunk tr [u |]];
      try discriminate Hf; injection Hf as <-.
    + apply after_translate_grows.
    + apply processQueue_run_grows.
  - apply resume_grows. intros t f Hf st'.
    destruct (awaiting t) as [chunk [v |] | chunk tr [u |]];
      try discriminate Hf; injection Hf as <-. apply after_translate_grows.
  - apply resume_grows. intros t f Hf st'.
    destruct (awaiting t) as [chunk [v |] | chunk tr [u |]];
      try discriminate Hf; injection Hf as <-. apply after_translate_grows.
  - apply resume_grows. intros t f Hf st'.
    destruct (awaiting t) as [chunk [v |] | chunk tr [u |]];
      try discriminate Hf; injection Hf as <-. apply after_speak_grows.
  - apply resume_grows. intros t f Hf st'.
    destruct (awaiting t) as [chunk [v |] | chunk tr [u |]];
      try discriminate Hf; injection Hf as <-. apply after_speak_grows.
Qed.

Lemma exec_from_grows (trace : list Event) :
  forall st, grows st (exec_from st trace).
Proof.
  induction trace as [| ev trace IH]; intros st; [apply grows_refl |].
  eapply grows_trans; [apply (step_grows st ev) | apply IH].
Qed.

End Growth.

(** X6.  Whatever happens later, the items shown and the audio handed to
    the streamer stay: every later state has the items of the earlier one
    as a prefix of its own, and once the streamer exists the buffers it has
    received are a prefix of the ones it has later. *)
Theorem items_and_audio_only_grow (trace more : list Event) :
  (exists items,
     translations (exec (trace ++ more)) = translations (exec trace) ++ items)
  /\ (forall a, audioStreamerRef (exec trace) = Some a ->
        exists buffers,
          audioStreamerRef (exec (trace ++ more)) = Some (a ++ buffers)).
Proof.
  unfold exec, exec_from. rewrite fold_left_app.
  apply (exec_from_grows more).
Qed.

(** X7.  When the payload of an audio part cannot be decoded, the parts
    before it (payloads with media types, the audio ones decoding to
    [payloads]) have been handed to the streamer, the parts after it are
    dropped with it, and the exception stays inside [speakWithGemini]: the
    loop of [processQueue] goes on as after a response it could use. *)
Theorem undecodable_part_drops_the_rest (before after : list Part) (part : Part)
  (payloads : list (list N)) (key : jsstring) (st : State) :
  forallb has_media_type before = true ->
  List.map part_payload (filter is_audio_part before) = List.map Some payloads ->
  is_audio_part part = true -> part_payload part = None ->
  feed_parts (before ++ part :: after) (audioStreamerRef st)
  = (option_map (fun a => a ++ payloads) (audioStreamerRef st), true)
  /\ after_speak key (Fulfilled (Some (before ++ part :: after))) st
     = processQueue_run key
         (set_audio (option_map (fun a => a ++ payloads) (audioStreamerRef st)) st).
Proof.
  intros Htyped Hbefore Haudio Hnone.
  destruct (decoded_parts_do_not_throw before payloads Hbefore Htyped)
    as [Hno Hpay].
  assert (Hthrows : stops_at (part :: after)).
  { destruct part as [[[[type |] payload] |]];
      unfold stops_at, throws, is_audio_part, part_payload in *; simpl in *;
      try discriminate Haudio.
    now rewrite Haudio, Hnone. }
  assert (Hfeed : forall streamer,
            feed_parts (before ++ part :: after) streamer
            = (option_map (fun a => a ++ payloads) streamer, true)).
  { intros streamer.
    rewrite (feed_parts_until before (part :: after) streamer Hno Hthrows).
    now rewrite Hpay. }
  split; [apply Hfeed |].
  simpl. now rewrite Hfeed.
Qed.

Lemma undecodable_part_drops_the_rest_witness :
  feed_parts broken_parts (audioStreamerRef (exec [EvInitAudioStreamer]))
  = (option_map (fun a => a ++ [[1; 2; 3]])
       (audioStreamerRef (exec [EvInitAudioStreamer])), true)
  /\ after_speak (js "key") (Fulfilled (Some broken_parts))
       (exec [EvInitAudioStreamer])
     = processQueue_run (js "key")
         (set_audio (option_map (fun a => a ++ [[1; 2; 3]])
                       (audioStreamerRef (exec [EvInitAudioStreamer])))
            (exec [EvInitAudioStreamer])).
Proof.
  apply (undecodable_part_drops_the_rest
           [mkPart (Some (mkBlob (Some (js "audio/pcm")) (js "AQID")))]
           [mkPart (Some (mkBlob (Some (js "audio/pcm")) (js "/w==")))]
           (mkPart (Some (mkBlob (Some (js "audio/pcm")) (js "****"))))
           [[1; 2; 3]] (js "key") (exec [EvInitAudioStreamer]));
    vm_compute; reflexivity.
Defined.

(** ** Items, requests and keys *)

Section Quality.

Lemma speech_texts_app (l1 l2 : list Request) :
  speech_texts (l1 ++ l2) = speech_texts l1 ++ speech_texts l2.
Proof. apply flat_map_app. Qed.

Lemma translate_texts_app (l1 l2 : list Request) :
  translate_texts (l1 ++ l2) = translate_texts l1 ++ translate_texts l2.
Proof. apply flat_map_app. Qed.

(** The task that a run of the loop head leaves, and its request. *)
Lemma processQueue_run_shape (key : jsstring) (st : State) :
  running st ->
  (translationQueue st = []
   /\ tasks (processQueue_run key st) = []
   /\ network (processQueue_run key st) = network st)
  \/ (exists chunk queue,
        translationQueue st = chunk :: queue /\ truthy chunk = true
        /\ translationQueue (processQueue_run key st) = queue
        /\ ((truthy key = true
             /\ tasks (processQueue_run key st)
                = [mkTask key (AwaitTranslate chunk Pending)]
             /\ network (processQueue_run key st)
                = network st ++ [TranslateRequest chunk])
            \/ (truthy key = false
                /\ tasks (processQueue_run key st)
                   = [mkTask key (AwaitTranslate chunk (Resolved None))]
                /\ network (processQueue_run key st) = network st))).
Proof.
  intros (Hp & Ht & Hq).
  destruct (translationQueue st) as [| chunk queue] eqn:Hqueue.
  - left. rewrite (processQueue_run_nil key st Hqueue). simpl. auto.
  - right. inversion Hq as [| ? ? Hc _]; subst. exists chunk, queue.
    rewrite (processQueue_run_cons key st chunk queue Hqueue Hc).
    unfold translateWithGemini.
    destruct (truthy key); simpl; rewrite Ht; simpl;
      (split; [reflexivity |]); (split; [exact Hc |]); (split; [reflexivity |]);
      [left | right]; auto.
Qed.

Lemma processQueue_run_quality (key : jsstring) (st : State) :
  running st -> quality st -> quality (processQueue_run key st).
Proof.
  intros Hrun (_ & Hitems & Hspeech).
  destruct (processQueue_run_effects key st) as (Htr & _).
  unfold quality. rewrite Htr.
  destruct (processQueue_run_shape key st Hrun)
    as [(_ & Ht & Hn) | (chunk & queue & _ & Hc & _
                         & [(Hk & Ht & Hn) | (Hk & Ht & Hn)])];
    rewrite Ht, Hn; (split; [| split; [exact Hitems |]]).
  - constructor.
  - exact Hspeech.
  - constructor; [| constructor]. unfold task_ok. simpl. auto.
  - rewrite speech_texts_app. simpl. now rewrite app_nil_r.
  - constructor; [| constructor]. unfold task_ok. simpl. auto.
  - exact Hspeech.
Qed.

Lemma translation_of_response_ok (text : option jsstring) (translated : jsstring) :
  translation_of_response text = Some translated ->
  truthy translated = true /\ trim translated = translated.
Proof.
  destruct text as [t |]; simpl; [| discriminate].
  destruct (truthy (trim t)) eqn:Ht; [| discriminate].
  intros H. injection H as <-. split; [exact Ht | apply trim_idempotent].
Qed.

Lemma running_setStatus (s : jsstring) (st : State) :
  running st -> running (setStatus s st).
Proof. intros (H1 & H2 & H3). now repeat split. Qed.

Lemma quality_step (st : State) (ev : Event) :
  single_flight st -> quality st -> quality (step st ev).
Proof.
  intros Hsf Hq.
  assert (Hres : forall i k,
            (forall t f, tasks st = [t] -> task_ok t -> k t = Some f ->
               running (set_tasks [] st) -> quality (set_tasks [] st) ->
               quality (f (set_tasks [] st))) ->
            quality (resume i k st)).
  { intros i k Hk.
    destruct (resume_cases i k st Hsf) as [-> | (t & f & Ht & Hkt & Hrun & ->)];
      [exact Hq |].
    destruct Hq as (Hts & Hitems & Hspeech). rewrite Ht in Hts.
    inversion Hts as [| ? ? Htask _]; subst.
    apply (Hk t f Ht Htask Hkt Hrun). split; [constructor | now split]. }
  assert (Hfail : forall key chunk message st0,
            running st0 -> quality st0 ->
            quality (after_translate key chunk (Rejected message) st0)).
  { intros key chunk message st0 Hrun Hq0. simpl.
    apply processQueue_run_quality; [now apply running_setStatus | exact Hq0]. }
  destruct ev as [| key text | i | i text | i message | i parts | i message];
    simpl step.
  - unfold initAudioStreamer. now destruct (audioStreamerRef st).
  - unfold enqueueTranslation. destruct (truthy text) eqn:Htext; [| exact Hq].
    simpl. destruct (processingQueue st) eqn:Hp; simpl; [exact Hq |].
    destruct Hsf as (Hidle & _ & _). destruct (Hidle Hp) as [Ht Hqueue].
    unfold processQueue. simpl. rewrite Hp.
    apply processQueue_run_quality; [| exact Hq].
    repeat split; simpl; auto. rewrite Hqueue. simpl.
    constructor; [exact Htext | constructor].
  - apply Hres. intros t f Ht Htask Hf Hrun Hq0. unfold task_ok in Htask.
    destruct (awaiting t) as [chunk [v |] | chunk tr [u |]];
      try discriminate Hf; injection Hf as <-.
    + destruct Htask as (_ & -> & _). simpl.
      now apply processQueue_run_quality.
    + contradiction.
  - apply Hres. intros t f Ht Htask Hf Hrun Hq0. unfold task_ok in Htask.
    destruct (awaiting t) as [chunk [v |] | chunk tr [u |]];
      try discriminate Hf; injection Hf as <-.
    destruct Htask as (Hchunk & Hkey). simpl.
    destruct (translation_of_response text) as [translated |] eqn:Htext;
      [| now apply processQueue_run_quality].
    destruct (translation_of_response_ok _ _ Htext) as (Htruthy & Htrim).
    rewrite Htruthy. unfold speakWithGemini. rewrite Hkey. simpl.
    destruct Hq0 as (_ & Hitems & Hspeech). simpl in *.
    split; [| split].
    + constructor; [| constructor]. unfold task_ok. simpl. exact Hkey.
    + apply Forall_app. split; [exact Hitems |].
      constructor; [| constructor]. now repeat split.
    + simpl. rewrite speech_texts_app, map_app, Hspeech. reflexivity.
  - apply Hres. intros t f Ht Htask Hf Hrun Hq0.
    destruct (awaiting t) as [chunk [v |] | chunk tr [u |]];
      try discriminate Hf; injection Hf as <-. now apply Hfail.
  - apply Hres. intros t f Ht Htask Hf Hrun Hq0.
    destruct (awaiting t) as [chunk [v |] | chunk tr [u |]];
      try discriminate Hf; injection Hf as <-. simpl.
    apply processQueue_run_quality.
    + destruct Hrun as (H1 & H2 & H3). destruct parts; now repeat split.
    + destruct parts; exact Hq0.
  - apply Hres. intros t f Ht Htask Hf Hrun Hq0.
    destruct (awaiting t) as [chunk [v |] | chunk tr [u |]];
      try discriminate Hf; injection Hf as <-. simpl.
    now apply processQueue_run_quality.
Qed.

Lemma quality_exec (trace : list Event) : quality (exec trace).
Proof.
  induction trace as [| ev trace IH] using rev_ind.
  - repeat split; constructor.
  - rewrite exec_snoc. apply quality_step; [| exact IH].
    now destruct (exec_inv trace).
Qed.

End Quality.

(** X8.  Every item the queue produces has a source segment that is not
    empty and a translation that is not empty and is trimmed; and the texts
    sent to the synthesis service are exactly the translations of the items,
    in the order of the items: each translation is spoken once, and nothing
    else is. *)
Theorem items_are_spoken_once (trace : list Event) :
  Forall item_ok (translations (exec trace))
  /\ speech_texts (network (exec trace))
     = List.map translated (translations (exec trace)).
Proof. destruct (quality_exec trace) as (_ & H1 & H2). now split. Qed.

(** ** Requests with a key, and progress *)

Section Progress.

Lemma processQueue_run_requests (key : jsstring) (st : State) :
  running st -> truthy key = true ->
  translate_texts (network (processQueue_run key st))
    ++ translationQueue (processQueue_run key st)
  = translate_texts (network st) ++ translationQueue st
  /\ Forall (fun t => truthy (apiKey t) = true) (tasks (processQueue_run key st)).
Proof.
  intros Hrun Hkey.
  destruct (processQueue_run_shape key st Hrun)
    as [(Hq & Ht & Hn) | (chunk & queue & Hq & Hc & Hq'
                          & [(_ & Ht & Hn) | (Hk & _)])].
  - rewrite Ht, Hn, (processQueue_run_nil key st Hq), Hq. simpl.
    split; [reflexivity | constructor].
  - rewrite Ht, Hn, Hq', Hq, translate_texts_app. simpl.
    rewrite <- app_assoc. split; [reflexivity |].
    constructor; [exact Hkey | constructor].
  - congruence.
Qed.

Lemma keyed_requests_step (st : State) (ev : Event) (enq : list jsstring) :
  single_flight st -> keyed_requests enq st -> keyed ev = true ->
  keyed_requests (enq ++ enqueued_by ev) (step st ev).
Proof.
  intros Hsf [Hreq Hkeys] Hev.
  assert (Hres : forall i k, enqueued_by ev = [] ->
            (forall t f, tasks st = [t] -> truthy (apiKey t) = true ->
               k t = Some f -> running (set_tasks [] st) ->
               keyed_requests enq (f (set_tasks [] st))) ->
            keyed_requests (enq ++ enqueued_by ev) (resume i k st)).
  { intros i k Hnil Hk. rewrite Hnil, app_nil_r.
    destruct (resume_cases i k st Hsf) as [-> | (t & f & Ht & Hkt & Hrun & ->)];
      [now split |].
    rewrite Ht in Hkeys. inversion Hkeys as [| ? ? Hkey _]; subst.
    now apply (Hk t f Ht Hkey Hkt Hrun). }
  assert (Hrun' : forall key st0, running st0 -> truthy key = true ->
            translate_texts (network st0) ++ translationQueue st0 = enq ->
            keyed_requests enq (processQueue_run key st0)).
  { intros key st0 Hrun Hkey Hst0.
    destruct (processQueue_run_requests key st0 Hrun Hkey) as [H1 H2].
    split; [congruence | exact H2]. }
  assert (Hat : forall key chunk c, truthy key = true ->
            running (set_tasks [] st) ->
            keyed_requests enq (after_translate key chunk c (set_tasks [] st))).
  { intros key chunk c Hkey Hrun.
    destruct c as [[translated |] | message]; simpl;
      [| now apply Hrun'
       | apply Hrun'; [now apply running_setStatus | exact Hkey | exact Hreq]].
    destruct (truthy translated); [| now apply Hrun'].
    unfold speakWithGemini. rewrite Hkey. simpl. split; simpl.
    - rewrite translate_texts_app. simpl. rewrite app_nil_r. exact Hreq.
    - constructor; [exact Hkey | constructor]. }
  destruct ev as [| key text | i | i text | i message | i parts | i message];
    simpl step.
  - simpl. rewrite app_nil_r. unfold initAudioStreamer.
    destruct (audioStreamerRef st); now split.
  - simpl in Hev. simpl enqueued_by. unfold enqueueTranslation.
    destruct (truthy text) eqn:Htext; simpl; [| rewrite app_nil_r; now split].
    destruct (processingQueue st) eqn:Hp; simpl.
    + split; [simpl; now rewrite app_assoc, Hreq | exact Hkeys].
    + destruct Hsf as (Hidle & _ & _). destruct (Hidle Hp) as [Ht Hq].
      unfold processQueue. simpl. rewrite Hp.
      match goal with |- keyed_requests _ (processQueue_run key ?s) =>
        destruct (processQueue_run_requests key s) as [H1 H2] end; auto.
      { repeat split; simpl; auto. rewrite Hq. simpl.
        constructor; [exact Htext | constructor]. }
      split; [| exact H2]. rewrite H1. simpl. now rewrite app_assoc, Hreq.
  - apply Hres; [reflexivity |]. intros t f Ht Hkey Hf Hrun.
    destruct (awaiting t) as [chunk [v |] | chunk tr [u |]];
      try discriminate Hf; injection Hf as <-.
    + now apply Hat.
    + now apply Hrun'.
  - apply Hres; [reflexivity |]. intros t f Ht Hkey Hf Hrun.
    destruct (awaiting t) as [chunk [v |] | chunk tr [u |]];
      try discriminate Hf; injection Hf as <-. now apply Hat.
  - apply Hres; [reflexivity |]. intros t f Ht Hkey Hf Hrun.
    destruct (awaiting t) as [chunk [v |] | chunk tr [u |]];
      try discriminate Hf; injection Hf as <-. now apply Hat.
  - apply Hres; [reflexivity |]. intros t f Ht Hkey Hf Hrun.
    destruct (awaiting t) as [chunk [v |] | chunk tr [u |]];
      try discriminate Hf; injection Hf as <-. simpl.
    apply Hrun'; auto.
    + destruct Hrun as (H1 & H2 & H3). destruct parts; now repeat split.
    + now destruct parts.
  - apply Hres; [reflexivity |]. intros t f Ht Hkey Hf Hrun.
    destruct (awaiting t) as [chunk [v |] | chunk tr [u |]];
      try discriminate Hf; injection Hf as <-. simpl. now apply Hrun'.
Qed.

Lemma processQueue_run_work (key : jsstring) (st : State) :
  running st -> work (processQueue_run key st) = (2 * length (translationQueue st))%nat.
Proof.
  intros Hrun. unfold work.
  destruct (processQueue_run_inv key st Hrun) as (_ & Hp & _). rewrite Hp.
  destruct (processQueue_run_shape key st Hrun)
    as [(_ & Ht & _) | (chunk & queue & _ & _ & _
                        & [(_ & Ht & _) | (_ & Ht & _)])];
    rewrite Ht; simpl; lia.
Qed.

End Progress.

(** X9.  When every call of [enqueueTranslation] is made with a key, the
    translation requests sent so far, followed by the queue, are the
    enqueued segments in enqueue order: each segment is sent for translation
    once, in order, when its turn comes, and never again after a failure. *)
Theorem segments_requested_once (trace : list Event) :
  forallb keyed trace = true ->
  translate_texts (network (exec trace)) ++ translationQueue (exec trace)
  = enqueued trace.
Proof.
  intros Hkeyed.
  assert (H : keyed_requests (enqueued trace) (exec trace)).
  { induction trace as [| ev trace IH] using rev_ind.
    - split; [reflexivity | constructor].
    - rewrite forallb_app in Hkeyed. apply andb_prop in Hkeyed as [Htrace Hev].
      simpl in Hev. rewrite andb_true_r in Hev.
      rewrite exec_snoc. unfold enqueued. rewrite flat_map_app. simpl.
      rewrite app_nil_r. apply keyed_requests_step; auto.
      now destruct (exec_inv trace). }
  apply H.
Qed.

Lemma segments_requested_once_witness :
  translate_texts (network (exec keyed_trace)) ++ translationQueue (exec keyed_trace)
  = enqueued keyed_trace.
Proof.
  apply (segments_requested_once keyed_trace). vm_compute. reflexivity.
Defined.

(** X10.  The queue cannot stall.  While the flag is set, the one suspended
    invocation waits for an event, and every event that settles what it
    waits for strictly lowers the number of stage completions still to
    come, which is at most two per waiting segment; that number is zero
    exactly when the flag is clear. *)
Theorem drain_makes_progress (trace : list Event) (t : Task) (ev : Event) :
  tasks (exec trace) = [t] -> awaited_by t ev = true ->
  (work (step (exec trace) ev) < work (exec trace))%nat
  /\ (work (exec trace) <= 2 * length (pending (exec trace)) + 1)%nat
  /\ (forall trace', work (exec trace') = O <-> processingQueue (exec trace') = false)
  /\ (forall t', exists ev', awaited_by t' ev' = true).
Proof.
  intros Ht Hev.
  destruct (exec_inv trace) as ((Hidle & Hbusy & Hq) & _).
  assert (Hrun : running (set_tasks [] (exec trace))).
  { destruct (processingQueue (exec trace)) eqn:Hp; [now repeat split |].
    destruct (Hidle eq_refl) as [Hnil _]. congruence. }
  split; [| split; [| split]].
  - unfold work at 2. unfold pending, in_translation. rewrite Ht.
    destruct t as [key [chunk [v |] | chunk tr [u |]]];
      destruct ev as [| k x | [| i] | [| i] x | [| i] m | [| i] ps | [| i] m];
      try discriminate Hev; simpl step; unfold resume; rewrite Ht;
      cbn [nth_error awaiting apiKey remove_nth translating in_synthesis
           flat_map filter app length].
    + destruct v as [translated |]; simpl after_translate.
      * destruct (truthy translated).
        -- unfold speakWithGemini, work, pending, in_translation.
           destruct (truthy key); simpl; lia.
        -- rewrite (processQueue_run_work key _ Hrun). simpl. lia.
      * rewrite (processQueue_run_work key _ Hrun). simpl. lia.
    + destruct (translation_of_response x) as [translated |]; simpl after_translate.
      * destruct (truthy translated).
        -- unfold speakWithGemini, work, pending, in_translation.
           destruct (truthy key); simpl; lia.
        -- rewrite (processQueue_run_work key _ Hrun). simpl. lia.
      * rewrite (processQueue_run_work key _ Hrun). simpl. lia.
    + simpl after_translate.
      rewrite (processQueue_run_work key _ (running_setStatus _ _ Hrun)).
      simpl. lia.
    + rewrite (processQueue_run_work key _ Hrun). simpl. lia.
    + simpl after_speak.
      assert (Hrun' : running (speak_response ps (set_tasks [] (exec trace)))).
      { destruct Hrun as (H1 & H2 & H3). destruct ps; now repeat split. }
      rewrite (processQueue_run_work key _ Hrun'). destruct ps; simpl; lia.
    + simpl after_speak. rewrite (processQueue_run_work key _ Hrun). simpl. lia.
  - unfold work. rewrite Ht. simpl. destruct (in_synthesis t); simpl; lia.
  - intros trace'. destruct (exec_inv trace') as ((Hidle' & Hbusy' & _) & _).
    unfold work, pending, in_translation. split.
    + intros Hw. destruct (processingQueue (exec trace')) eqn:Hp; [| reflexivity].
      destruct (Hbusy' eq_refl) as [t' Ht']. rewrite Ht' in Hw.
      unfold translating, in_synthesis in Hw.
      destruct t' as [key' [chunk' p' | chunk' tr' p']]; simpl in Hw; lia.
    + intros Hp. destruct (Hidle' Hp) as [-> ->]. reflexivity.
  - intros [key [chunk [v |] | chunk tr [u |]]].
    + now exists (EvMicrotask 0).
    + now exists (EvTranslateResponse 0 None).
    + now exists (EvMicrotask 0).
    + now exists (EvSpeakResponse 0 None).
Qed.

Lemma drain_makes_progress_witness :
  (work (step (exec keyed_trace) (EvTranslateResponse 0 (Some (js "dos"))))
   < work (exec keyed_trace))%nat
  /\ (work (exec keyed_trace) <= 2 * length (pending (exec keyed_trace)) + 1)%nat
  /\ (forall trace', work (exec trace') = O <-> processingQueue (exec trace') = false)
  /\ (forall t', exists ev', awaited_by t' ev' = true).
Proof.
  apply (drain_makes_progress keyed_trace
           (mkTask (js "key") (AwaitTranslate (js "two") Pending))
           (EvTranslateResponse 0 (Some (js "dos"))));
    vm_compute; reflexivity.
Defined.

(** ** The live adapter *)

Section Live.

Lemma onresult_loop_spec (rs : list SpeechResult) :
  forall finalChunk interim,
    onresult_loop rs finalChunk interim
    = (finalChunk ++ flat_map (fun r => transcript r ++ SPACE) (filter isFinal rs),
       interim ++ flat_map transcript (filter (fun r => negb (isFinal r)) rs)).
Proof.
  induction rs as [| res rs IH]; intros finalChunk interim; simpl.
  - now rewrite !app_nil_r.
  - destruct (isFinal res); simpl; rewrite IH; now rewrite <- !app_assoc.
Qed.

Lemma onresult_cases (key : jsstring) (event : ResultEvent) (app : App) :
  onresult key event app
  = if truthy (final_segment event) then
      setInterimTranscript []
        (set_core (enqueueTranslation key (final_segment event) (core app))
           (setFinalTranscript (fun prev => prev ++ final_segment event ++ LF) app))
    else setInterimTranscript (interim_text event) app.
Proof.
  unfold onresult, final_segment, interim_text, read_results.
  rewrite onresult_loop_spec. reflexivity.
Qed.

End Live.

(** X11.  Interim results never reach the queue or the final transcript:
    when no entry from [resultIndex] on is final, the handler only replaces
    the interim display by the concatenation of the entries it read, and
    the entries before [resultIndex] play no part. *)
Theorem interim_results_are_display_only (key : jsstring) (event : ResultEvent)
  (app : App) :
  forallb (fun r => negb (isFinal r)) (read_results event) = true ->
  onresult key event app
  = setInterimTranscript (flat_map transcript (read_results event)) app
  /\ core (onresult key event app) = core app
  /\ finalTranscript (onresult key event app) = finalTranscript app.
Proof.
  intros Hall.
  assert (Hfinal : filter isFinal (read_results event) = []).
  { induction (read_results event) as [| r rs IH]; [reflexivity |].
    simpl in *. apply andb_prop in Hall as [Hr Hrs].
    destruct (isFinal r); [discriminate Hr | now apply IH]. }
  assert (Hinterim : filter (fun r => negb (isFinal r)) (read_results event)
                     = read_results event).
  { induction (read_results event) as [| r rs IH]; [reflexivity |].
    simpl in *. apply andb_prop in Hall as [Hr Hrs]. rewrite Hr.
    f_equal. apply IH; [exact Hrs |].
    destruct (isFinal r); [discriminate Hr | exact Hfinal]. }
  rewrite onresult_cases. unfold final_segment, interim_text.
  rewrite Hfinal, Hinterim. simpl. auto.
Qed.

Lemma interim_results_are_display_only_witness :
  onresult (js "key") interim_event (mkApp initial [] [] false [] [] [] [])
  = setInterimTranscript (flat_map transcript (read_results interim_event))
      (mkApp initial [] [] false [] [] [] [])
  /\ core (onresult (js "key") interim_event (mkApp initial [] [] false [] [] [] []))
     = core (mkApp initial [] [] false [] [] [] [])
  /\ finalTranscript (onresult (js "key") interim_event
                        (mkApp initial [] [] false [] [] [] []))
     = finalTranscript (mkApp initial [] [] false [] [] [] []).
Proof.
  apply (interim_results_are_display_only (js "key") interim_event
           (mkApp initial [] [] false [] [] [] [])).
  vm_compute. reflexivity.
Defined.

(** X12.  When the final transcripts of an event are not blank, the handler
    enqueues one segment: their concatenation with single spaces after
    each, trimmed.  The segment never starts or ends with whitespace, it is
    the line appended to the final transcript, the interim display is
    cleared, and in every state the queue reaches the segment is accepted
    behind the segments that wait. *)
Theorem final_results_are_enqueued_trimmed (key : jsstring) (event : ResultEvent)
  (app : App) (trace : list Event) :
  final_segment event <> [] -> core app = exec trace ->
  core (onresult key event app)
  = enqueueTranslation key (final_segment event) (exec trace)
  /\ pending (core (onresult key event app))
     = pending (exec trace) ++ [final_segment event]
  /\ clean_ends (final_segment event)
  /\ finalTranscript (onresult key event app)
     = finalTranscript app ++ final_segment event ++ LF
  /\ interimTranscript (onresult key event app) = [].
Proof.
  intros Hne Hcore.
  assert (Htruthy : truthy (final_segment event) = true)
    by (destruct (final_segment event); [congruence | reflexivity]).
  rewrite onresult_cases, Htruthy. simpl. rewrite Hcore.
  split; [reflexivity |]. split; [| split; [| auto]].
  - destruct (exec_inv trace) as (Hsf & _).
    destruct (enqueueTranslation_inv key (final_segment event) _ Hsf) as (_ & H & _).
    rewrite H. simpl. now rewrite Htruthy.
  - apply trim_clean.
Qed.

Lemma final_results_are_enqueued_trimmed_witness :
  core (onresult (js "key") final_event (mkApp initial [] [] false [] [] [] []))
  = enqueueTranslation (js "key") (final_segment final_event) (exec [])
  /\ pending (core (onresult (js "key") final_event
                      (mkApp initial [] [] false [] [] [] [])))
     = pending (exec []) ++ [final_segment final_event]
  /\ clean_ends (final_segment final_event)
  /\ finalTranscript (onresult (js "key") final_event
                        (mkApp initial [] [] false [] [] [] []))
     = finalTranscript (mkApp initial [] [] false [] [] [] [])
       ++ final_segment final_event ++ LF
  /\ interimTranscript (onresult (js "key") final_event
                          (mkApp initial [] [] false [] [] [] [])) = [].
Proof.
  apply (final_results_are_enqueued_trimmed (js "key") final_event
           (mkApp initial [] [] false [] [] [] []) []).
  - vm_compute. discriminate.
  - reflexivity.
Defined.

(** ** Devices and labels *)

Section Devices.

Lemma label_or_truthy (prefix : jsstring) (d : MediaDeviceInfo.t) :
  prefix <> [] -> truthy (label_or prefix d) = true.
Proof.
  intros Hp. unfold label_or.
  destruct (truthy (MediaDeviceInfo.label d)) eqn:Hl; [exact Hl |].
  destruct prefix; [congruence | reflexivity].
Qed.

Lemma audio_devices_spec (kind prefix : jsstring) (devices : list MediaDeviceInfo.t) :
  prefix <> [] ->
  List.map deviceId (audio_devices kind prefix devices)
  = List.map MediaDeviceInfo.deviceId
      (filter (fun d => jsstring_eqb (MediaDeviceInfo.kind d) kind) devices)
  /\ Forall (fun d => truthy (label d) = true) (audio_devices kind prefix devices)
  /\ (forall d, In d devices ->
        jsstring_eqb (MediaDeviceInfo.kind d) kind = true ->
        truthy (MediaDeviceInfo.label d) = true ->
        In (mkAudioDevice (MediaDeviceInfo.deviceId d) (MediaDeviceInfo.label d))
          (audio_devices kind prefix devices)).
Proof.
  intros Hp. unfold audio_devices. split; [| split].
  - now rewrite map_map.
  - apply Forall_forall. intros a Ha. apply in_map_iff in Ha as (d & <- & _).
    simpl. now apply label_or_truthy.
  - intros d Hin Hkind Hlabel. apply in_map_iff. exists d. split.
    + unfold label_or. now rewrite Hlabel.
    + apply filter_In. now split.
Qed.

Lemma own_property_in (code v : jsstring) (map : list (jsstring * jsstring)) :
  own_property code map = Some v -> In v (List.map snd map).
Proof.
  induction map as [| [k w] map IH]; simpl; [discriminate |].
  destruct (jsstring_eqb k code).
  - intros H. injection H as <-. now left.
  - intros H. right. now apply IH.
Qed.

End Devices.

(** X13.  After [enumerateAudioDevices] has listed the devices, the inputs
    and the outputs are the audio inputs and the audio outputs of the
    enumeration, with their identifiers, in enumeration order; no listed
    device has an empty label, and a device that has a label keeps it.
    When enumeration is not supported or fails, both lists stay as they
    were. *)
Theorem enumerateAudioDevices_lists (supported : bool)
  (enumerated : Completion (list MediaDeviceInfo.t)) (app : App) :
  match supported, enumerated with
  | true, Fulfilled devices =>
      List.map deviceId (inputDevices (enumerateAudioDevices supported enumerated app))
      = List.map MediaDeviceInfo.deviceId
          (filter (fun d => jsstring_eqb (MediaDeviceInfo.kind d) AUDIOINPUT) devices)
      /\ List.map deviceId (outputDevices (enumerateAudioDevices supported enumerated app))
         = List.map MediaDeviceInfo.deviceId
             (filter (fun d => jsstring_eqb (MediaDeviceInfo.kind d) AUDIOOUTPUT) devices)
      /\ Forall (fun d => truthy (label d) = true)
           (inputDevices (enumerateAudioDevices supported enumerated app)
            ++ outputDevices (enumerateAudioDevices supported enumerated app))
      /\ (forall d, In d devices -> truthy (MediaDeviceInfo.label d) = true ->
            (jsstring_eqb (MediaDeviceInfo.kind d) AUDIOINPUT = true ->
             In (mkAudioDevice (MediaDeviceInfo.deviceId d) (MediaDeviceInfo.label d))
               (inputDevices (enumerateAudioDevices supported enumerated app)))
            /\ (jsstring_eqb (MediaDeviceInfo.kind d) AUDIOOUTPUT = true ->
                In (mkAudioDevice (MediaDeviceInfo.deviceId d) (MediaDeviceInfo.label d))
                  (outputDevices (enumerateAudioDevices supported enumerated app))))
      /\ core (enumerateAudioDevices supported enumerated app) = core app
  | _, _ =>
      inputDevices (enumerateAudioDevices supported enumerated app) = inputDevices app
      /\ outputDevices (enumerateAudioDevices supported enumerated app)
         = outputDevices app
      /\ exists s, statusLog (core (enumerateAudioDevices supported enumerated app))
                   = statusLog (core app) ++ [s]
  end.
Proof.
  destruct supported; [destruct enumerated as [devices | message] |]; simpl.
  - assert (Hm : js "Microphone" <> []) by discriminate.
    assert (Hs : js "Speaker" <> []) by discriminate.
    destruct (audio_devices_spec AUDIOINPUT (js "Microphone") devices Hm)
      as (I1 & I2 & I3).
    destruct (audio_devices_spec AUDIOOUTPUT (js "Speaker") devices Hs)
      as (O1 & O2 & O3).
    split; [exact I1 |]. split; [exact O1 |].
    split; [apply Forall_app; now split |].
    split; [| reflexivity].
    intros d Hin Hlabel. split; intros Hkind; [now apply I3 | now apply O3].
  - split; [reflexivity |]. split; [reflexivity |]. eexists. reflexivity.
  - split; [reflexivity |]. split; [reflexivity |]. eexists. reflexivity.
Qed.

(** X14.  [getLanguageLabel] gives every option of the language selects the
    text that the select shows for it.  A code that is neither a key of the
    map nor the name of a property inherited from [Object.prototype] comes
    back unchanged, a code that names such a property gives that property
    and not a string; and a string that comes out of the function is mapped
    to itself by the function. *)
Theorem getLanguageLabel_spec :
  (forall value text, In (value, text) language_options ->
     getLanguageLabel value = LabelString text)
  /\ (forall code, own_property code language_map = None ->
        getLanguageLabel code
        = if existsb (jsstring_eqb code) inherited_properties
          then LabelInherited code else LabelString code)
  /\ (forall code s, getLanguageLabel code = LabelString s ->
        getLanguageLabel s = LabelString s).
Proof.
  split; [| split].
  - intros value text Hin. vm_compute in Hin.
    repeat (destruct Hin as [Hin | Hin];
            [injection Hin as <- <-; vm_compute; reflexivity |]).
    contradiction.
  - intros code Hnone. unfold getLanguageLabel. now rewrite Hnone.
  - intros code s. unfold getLanguageLabel at 1.
    destruct (own_property code language_map) as [v |] eqn:Hown.
    + apply own_property_in in Hown.
      assert (Hv : truthy v = true /\ getLanguageLabel v = LabelString v).
      { vm_compute in Hown.
        repeat (destruct Hown as [Hown | Hown];
                [subst v; split; vm_compute; reflexivity |]).
        contradiction. }
      destruct Hv as [Htruthy Hlabel]. rewrite Htruthy.
      intros H. injection H as <-. exact Hlabel.
    + destruct (existsb (jsstring_eqb code) inherited_properties) eqn:Hin;
        [discriminate |].
      intros H. injection H as <-.
      unfold getLanguageLabel. now rewrite Hown, Hin.
Qed.

(** ** The outcomes of [fetchZoomTranscript] *)

Section Zoom.

Opaque encodeURIComponent list_url download_url_with_token.

Lemma process_transcript_post (env : ZoomEnv) (resp : HttpResponse)
  (vtt : jsstring) (app : App) :
  downloadResponse env = Fulfilled resp -> body_text resp = Fulfilled vtt ->
  zoom_post env (timeouts app) (finalTranscript app)
    (fst (process_transcript env vtt app)) (snd (process_transcript env vtt app))
  /\ fetches (fst (process_transcript env vtt app)) = fetches app.
Proof.
  intros Hresp Hbody.
  assert (Hd : delivered env vtt) by (exists resp; now split).
  unfold process_transcript.
  destruct (truthy (parseVTT vtt)) eqn:Htruthy; simpl.
  - assert (Hne : parseVTT vtt <> [])
      by (intros H; rewrite H in Htruthy; discriminate Htruthy).
    unfold initAudioStreamer_or_throw. simpl.
    destruct (audioStreamerRef (core app)) as [a |] eqn:Ha; simpl.
    + split; [| reflexivity]. right. exists vtt.
      split; [exact Hd |]. split; [exact Hne |].
      split; [eexists; reflexivity |].
      split; [unfold queue_sentences; now rewrite !forEach_sentence_spec |].
      split; [reflexivity |]. rewrite Ha. discriminate.
    + destruct (audioInit env) as [| message | message] eqn:Haudio; simpl.
      * split; [| reflexivity]. right. exists vtt.
        split; [exact Hd |]. split; [exact Hne |].
        split; [eexists; reflexivity |].
        split; [unfold queue_sentences; now rewrite !forEach_sentence_spec |].
        split; [reflexivity |]. unfold initAudioStreamer. simpl.
        rewrite Ha. discriminate.
      * split; [| reflexivity]. split; [reflexivity |]. right.
        split; [rewrite ?Haudio; discriminate |]. now exists vtt.
      * split; [| reflexivity]. split; [reflexivity |]. right.
        split; [rewrite ?Haudio; discriminate |]. now exists vtt.
  - split; [| reflexivity]. left. exists vtt.
    split; [exact Hd |].
    split; [destruct (parseVTT vtt); [reflexivity | discriminate Htruthy] |].
    split; [eexists; reflexivity |]. now split.
Qed.

Lemma download_transcript_post (zoomToken : jsstring) (env : ZoomEnv)
  (file : RecordingFile) (app : App) :
  zoom_post env (timeouts app) (finalTranscript app)
    (fst (download_transcript zoomToken env file app))
    (snd (download_transcript zoomToken env file app))
  /\ exists new,
       fetches (fst (download_transcript zoomToken env file app))
       = fetches app ++ new
       /\ (new = []
           \/ exists target component,
                encodeURIComponent target = Some component
                /\ new = [mkFetch (CORS_PROXY ++ component) None]).
Proof.
  unfold download_transcript.
  destruct (download_url file) as [url |]; cbn [fst snd].
  2: { split; [now split; [| left] |]. exists []. rewrite app_nil_r. auto. }
  destruct (encodeURIComponent _) as [component |] eqn:Henc; cbn [fst snd].
  2: { split; [now split; [| left] |]. exists []. rewrite app_nil_r. auto. }
  assert (Hnew : forall r, fetches r = fetches app ++ [mkFetch (CORS_PROXY ++ component) None] ->
            exists new, fetches r = fetches app ++ new
              /\ (new = [] \/ exists target c,
                                encodeURIComponent target = Some c
                                /\ new = [mkFetch (CORS_PROXY ++ c) None])).
  { intros r Hr. eexists. split; [exact Hr |]. right.
    eexists. exists component. split; [exact Henc | reflexivity]. }
  destruct (downloadResponse env) as [downResp | message] eqn:Hresp; cbn [fst snd].
  2: { split; [now split; [| left] |]. apply Hnew. reflexivity. }
  destruct (ok downResp); cbn [fst snd negb].
  2: { split; [now split; [| left] |]. apply Hnew. reflexivity. }
  destruct (body_text downResp) as [vttText | message] eqn:Hbody; cbn [fst snd].
  2: { split; [now split; [| left] |]. apply Hnew. reflexivity. }
  match goal with |- context [process_transcript env vttText ?a] =>
    destruct (process_transcript_post env downResp vttText a Hresp Hbody)
      as [Hpost Hfetch] end.
  split; [exact Hpost |]. apply Hnew. rewrite Hfetch. reflexivity.
Qed.

Lemma zoom_try_post (zoomToken zoomMeetingId : jsstring) (env : ZoomEnv) (app : App) :
  zoom_post env (timeouts app) (finalTranscript app)
    (fst (zoom_try zoomToken zoomMeetingId env app))
    (snd (zoom_try zoomToken zoomMeetingId env app))
  /\ exists new,
       fetches (fst (zoom_try zoomToken zoomMeetingId env app)) = fetches app ++ new
       /\ (length new <= 2)%nat
       /\ (exists rest, [Some (js "Bearer " ++ zoomToken); None]
                        = List.map authorization new ++ rest)
       /\ Forall (fun f => exists target component,
                    encodeURIComponent target = Some component
                    /\ fetch_url f = CORS_PROXY ++ component) new.
Proof.
  unfold zoom_try.
  destruct (encodeURIComponent (list_url zoomMeetingId)) as [component |] eqn:Henc;
    cbn [fst snd].
  2: { split; [now split; [| left] |]. exists []. rewrite app_nil_r.
       split; [reflexivity |]. split; [simpl; lia |].
       split; [eexists; reflexivity | constructor]. }
  assert (Hone : forall r, timeouts r = timeouts app ->
            finalTranscript r = finalTranscript app ->
            fetches r = fetches app
                        ++ [mkFetch (CORS_PROXY ++ component)
                              (Some (js "Bearer " ++ zoomToken))] ->
            forall m,
            zoom_post env (timeouts app) (finalTranscript app) r (Thrown m)
            /\ exists new,
                 fetches r = fetches app ++ new /\ (length new <= 2)%nat
                 /\ (exists rest, [Some (js "Bearer " ++ zoomToken); None]
                                  = List.map authorization new ++ rest)
                 /\ Forall (fun f => exists target c,
                              encodeURIComponent target = Some c
                              /\ fetch_url f = CORS_PROXY ++ c) new).
  { intros r Ht Hf Hr m. split; [now split; [| left] |].
    eexists. split; [exact Hr |]. split; [simpl; lia |].
    split; [eexists; reflexivity |].
    constructor; [| constructor]. now exists (list_url zoomMeetingId), component. }
  destruct (listResponse env) as [recResp | message]; cbn [fst snd];
    [| now apply Hone].
  destruct (ok recResp); cbn [fst snd negb].
  2: { destruct (body_text recResp); cbn [fst snd]; now apply Hone. }
  destruct (body_json recResp) as [recording_files | message]; cbn [fst snd];
    [| now apply Hone].
  destruct (find _ _) as [file |]; cbn [fst snd]; [| now apply Hone].
  match goal with |- context [download_transcript zoomToken env file ?a] =>
    destruct (download_transcript_post zoomToken env file a)
      as (Hpost & new & Hfetch & Hnew) end.
  split; [exact Hpost |].
  exists (mkFetch (CORS_PROXY ++ component) (Some (js "Bearer " ++ zoomToken)) :: new).
  rewrite Hfetch. simpl. rewrite <- app_assoc. split; [reflexivity |].
  destruct Hnew as [-> | (target & c & Hc & ->)]; simpl.
  - split; [lia |]. split; [eexists; reflexivity |].
    constructor; [| constructor]. now exists (list_url zoomMeetingId), component.
  - split; [lia |]. split; [exists []; reflexivity |].
    constructor; [now exists (list_url zoomMeetingId), component |].
    constructor; [| constructor]. exists target, c. split; [exact Hc | reflexivity].
Qed.

Transparent encodeURIComponent list_url download_url_with_token.

End Zoom.

(** X15.  A call of [fetchZoomTranscript] that passes its guard ends in one
    of three ways, and the last status tells which.  Loaded: the transcript
    was delivered and its prose is not empty, the timers of its sentences
    are registered behind the earlier ones, the prose is appended to the
    final transcript between its markers, and the audio output exists.
    Empty: the prose is empty, nothing is registered or appended.  Error:
    no timer is registered, and the final transcript is untouched unless
    only the creation of the audio output failed.  In every case the
    fetching flag is clear at the end. *)
Theorem fetchZoomTranscript_outcomes (zoomToken zoomMeetingId : jsstring)
  (env : ZoomEnv) (app : App) :
  zoomToken <> [] -> zoomMeetingId <> [] ->
  isFetchingZoom (fetchZoomTranscript zoomToken zoomMeetingId env app) = false
  /\ ((ends_with_status ZOOM_LOADED (fetchZoomTranscript zoomToken zoomMeetingId env app)
       /\ exists vtt,
            delivered env vtt /\ parseVTT vtt <> []
            /\ timeouts (fetchZoomTranscript zoomToken zoomMeetingId env app)
               = timeouts app ++ queue_sentences (parseVTT vtt)
            /\ finalTranscript (fetchZoomTranscript zoomToken zoomMeetingId env app)
               = finalTranscript app ++ transcript_block (parseVTT vtt)
            /\ audioStreamerRef
                 (core (fetchZoomTranscript zoomToken zoomMeetingId env app))
               <> None)
      \/ (ends_with_status ZOOM_EMPTY (fetchZoomTranscript zoomToken zoomMeetingId env app)
          /\ timeouts (fetchZoomTranscript zoomToken zoomMeetingId env app)
             = timeouts app
          /\ finalTranscript (fetchZoomTranscript zoomToken zoomMeetingId env app)
             = finalTranscript app)
      \/ (exists message,
            ends_with_status (ZOOM_ERROR message)
              (fetchZoomTranscript zoomToken zoomMeetingId env app)
            /\ timeouts (fetchZoomTranscript zoomToken zoomMeetingId env app)
               = timeouts app
            /\ (finalTranscript (fetchZoomTranscript zoomToken zoomMeetingId env app)
                = finalTranscript app
                \/ (audioInit env <> AudioReady
                    /\ exists vtt,
                         delivered env vtt
                         /\ finalTranscript
                              (fetchZoomTranscript zoomToken zoomMeetingId env app)
                            = finalTranscript app ++ transcript_block (parseVTT vtt))))).
Proof.
  intros Htoken Hid. unfold fetchZoomTranscript.
  destruct zoomToken as [| c1 token]; [congruence |].
  destruct zoomMeetingId as [| c2 id]; [congruence |].
  cbn [truthy negb orb].
  match goal with |- context [zoom_try ?t ?i env ?a] =>
    destruct (zoom_try_post t i env a) as (Hpost & _);
    destruct (zoom_try t i env a) as [r o] end.
  simpl in Hpost. destruct o as [| message]; simpl in *.
  - split; [reflexivity |].
    destruct Hpost as [(vtt & Hd & Hnil & Hs & Ht & Hf)
                      | (vtt & Hd & Hne & Hs & Ht & Hf & Ha)].
    + right. left. now repeat split.
    + left. split; [exact Hs |]. exists vtt. now repeat split.
  - split; [reflexivity |]. right. right. exists message.
    destruct Hpost as (Ht & Hf).
    split; [eexists; reflexivity |]. split; [exact Ht |].
    destruct Hf as [Hf | (Haudio & vtt & Hd & _ & Hf)]; [now left |].
    right. split; [exact Haudio |]. now exists vtt.
Qed.

Lemma fetchZoomTranscript_outcomes_witness :
  isFetchingZoom (fetchZoomTranscript (js "token") (js "85012345678") example_env
                    example_app) = false
  /\ ((ends_with_status ZOOM_LOADED
         (fetchZoomTranscript (js "token") (js "85012345678") example_env example_app)
       /\ exists vtt,
            delivered example_env vtt /\ parseVTT vtt <> []
            /\ timeouts (fetchZoomTranscript (js "token") (js "85012345678")
                           example_env example_app)
               = timeouts example_app ++ queue_sentences (parseVTT vtt)
            /\ finalTranscript (fetchZoomTranscript (js "token") (js "85012345678")
                                  example_env example_app)
               = finalTranscript example_app ++ transcript_block (parseVTT vtt)
            /\ audioStreamerRef
                 (core (fetchZoomTranscript (js "token") (js "85012345678")
                          example_env example_app))
               <> None)
      \/ (ends_with_status ZOOM_EMPTY
            (fetchZoomTranscript (js "token") (js "85012345678") example_env example_app)
          /\ timeouts (fetchZoomTranscript (js "token") (js "85012345678")
                         example_env example_app)
             = timeouts example_app
          /\ finalTranscript (fetchZoomTranscript (js "token") (js "85012345678")
                                example_env example_app)
             = finalTranscript example_app)
      \/ (exists message,
            ends_with_status (ZOOM_ERROR message)
              (fetchZoomTranscript (js "token") (js "85012345678") example_env
                 example_app)
            /\ timeouts (fetchZoomTranscript (js "token") (js "85012345678")
                           example_env example_app)
               = timeouts example_app
            /\ (finalTranscript (fetchZoomTranscript (js "token") (js "85012345678")
                                   example_env example_app)
                = finalTranscript example_app
                \/ (audioInit example_env <> AudioReady
                    /\ exists vtt,
                         delivered example_env vtt
                         /\ finalTranscript
                              (fetchZoomTranscript (js "token") (js "85012345678")
                                 example_env example_app)
                            = finalTranscript example_app
                              ++ transcript_block (parseVTT vtt))))).
Proof.
  apply (fetchZoomTranscript_outcomes (js "token") (js "85012345678") example_env
           example_app); discriminate.
Defined.

(** ** The requests of [fetchZoomTranscript] *)

Section Requests.

Lemma unreserved_not_delimiter (c : N) :
  uri_unreserved c = true -> url_delimiter c = false.
Proof.
  intros H. unfold url_delimiter.
  repeat match goal with
         | |- context [c =? ?k] =>
             destruct (N.eqb_spec c k) as [-> | _]; [discriminate H |]
         end.
  reflexivity.
Qed.

Lemma hex_digit_not_delimiter (d : N) : url_delimiter (hex_digit d) = false.
Proof.
  unfold hex_digit, url_delimiter.
  destruct (N.ltb_spec d 10);
    repeat match goal with
           | |- context [?a =? ?k] =>
               destruct (N.eqb_spec a k) as [? | _]; [lia |]
           end; reflexivity.
Qed.

Lemma percent_one_component (bytes : list N) :
  one_component (flat_map percent bytes) = true.
Proof.
  induction bytes as [| b bytes IH]; [reflexivity |].
  unfold one_component in *. cbn [flat_map percent app forallb].
  rewrite !hex_digit_not_delimiter, IH. reflexivity.
Qed.

Lemma encodeURIComponent_one_component (n : nat) :
  forall s component,
    (length s <= n)%nat -> encodeURIComponent s = Some component ->
    one_component component = true.
Proof.
  induction n as [| n IH]; intros s component Hlen Henc.
  - destruct s; [| simpl in Hlen; lia]. simpl in Henc.
    injection Henc as <-. reflexivity.
  - destruct s as [| c r]; simpl in Henc; [injection Henc as <-; reflexivity |].
    simpl in Hlen.
    destruct (uri_unreserved c) eqn:Hc.
    + destruct (encodeURIComponent r) as [q |] eqn:Hr; [| discriminate Henc].
      simpl in Henc. injection Henc as <-.
      unfold one_component. simpl. rewrite (unreserved_not_delimiter c Hc).
      apply (IH r q); [lia | exact Hr].
    + destruct (is_low_surrogate c); [discriminate Henc |].
      destruct (is_high_surrogate c).
      * destruct r as [| d r']; [discriminate Henc |].
        destruct (is_low_surrogate d); [| discriminate Henc].
        destruct (encodeURIComponent r') as [q |] eqn:Hr; [| discriminate Henc].
        simpl in Henc. injection Henc as <-.
        unfold one_component. rewrite forallb_app.
        fold (one_component (flat_map percent
                (utf8 ((c - 55296) * 1024 + (d - 56320) + 65536)))).
        rewrite percent_one_component.
        apply (IH r' q); [simpl in Hlen; lia | exact Hr].
      * destruct (encodeURIComponent r) as [q |] eqn:Hr; [| discriminate Henc].
        simpl in Henc. injection Henc as <-.
        unfold one_component. rewrite forallb_app.
        fold (one_component (flat_map percent (utf8 c))).
        rewrite percent_one_component.
        apply (IH r q); [lia | exact Hr].
Qed.

End Requests.

(** X16.  [fetchZoomTranscript] sends at most two requests, none when its
    guard fails; the bearer token is a header of the first and of no other.
    Whatever the meeting identifier, the token and the download URL hold,
    the URL handed to [fetch] is the proxy prefix followed by one query
    component: none of the characters that separate the parts of a URL
    occurs in it unencoded. *)
Theorem fetchZoomTranscript_requests (zoomToken zoomMeetingId : jsstring)
  (env : ZoomEnv) (app : App) :
  exists new,
    fetches (fetchZoomTranscript zoomToken zoomMeetingId env app)
    = fetches app ++ new
    /\ (length new <= 2)%nat
    /\ (zoomToken = [] \/ zoomMeetingId = [] -> new = [])
    /\ (exists rest, [Some (js "Bearer " ++ zoomToken); None]
                     = List.map authorization new ++ rest)
    /\ Forall (fun f => exists component,
                 fetch_url f = CORS_PROXY ++ component
                 /\ one_component component = true) new.
Proof.
  unfold fetchZoomTranscript.
  destruct (negb (truthy zoomToken) || negb (truthy zoomMeetingId)) eqn:Hguard.
  - exists []. cbn [app_setStatus set_core fetches]. rewrite app_nil_r.
    split; [reflexivity |]. split; [simpl; lia |]. split; [reflexivity |].
    split; [eexists; reflexivity | constructor].
  - match goal with |- context [zoom_try ?t ?i env ?a] =>
      destruct (zoom_try_post t i env a) as (_ & new & Hfetch & Hlen & Hauth & Hurls);
      destruct (zoom_try t i env a) as [r o] end.
    cbn [fst] in Hfetch. exists new. split.
    { destruct o; cbn [setIsFetchingZoom app_setStatus set_core fetches];
        exact Hfetch. }
    split; [exact Hlen |]. split.
    { intros [-> | ->]; simpl in Hguard; [discriminate Hguard |].
      rewrite orb_true_r in Hguard. discriminate Hguard. }
    split; [exact Hauth |].
    eapply Forall_impl; [| exact Hurls].
    intros f (target & component & Henc & Hurl). exists component.
    split; [exact Hurl |].
    apply (encodeURIComponent_one_component (length target) target); auto.
Qed.

(** ** [startRecording] and the recognition object *)

Section Recognition.





End Recognition.


